(** * DT5560 32-channel DAQ monitor: frame synchronisation and waveform decoding

    A shallow embedding of [daqMonitor.py], of what [monitor.py] does
    differently, and of the [ReadFifo] and [WriteReg] wrappers of
    [DT5560Digitizer_Functions.py].  The two scripts have the same
    [decode_event], the same polling loop and the same header search;
    the loop body of [monitor.py] also fills one minimum-amplitude
    histogram per channel between decoding and [tree.Fill()]
    ([handle_buffer] is the body of [daqMonitor.py],
    [handle_buffer_monitor] the one of [monitor.py]).

    - 32-bit FIFO words are integers [Z]; the two 16-bit halves of a word
      are taken with [Z.land] and [Z.shiftr] as in the source.  Nothing
      below needs a word to be below 2^32, so the results hold for any
      integers and for 32-bit words in particular.
    - numpy arrays are lists, read with [!!] and written with [<[_:=_]>];
      an index out of range raises [IndexError] as numpy does, it is not
      silently ignored.
    - Python exceptions are the [Raise] results of a small error monad.
    - the vendor library behind [ReadFifo] is an oracle: the n-th call
      answers with a status code, a valid-word count and the words it wrote.
    - the [while] loop of the accumulator has no bound in the source; its
      model takes a fuel argument and says [OutOfFuel] when it is used up. *)

From Stdlib Require Import ZArith Lia.
From stdpp Require Import base numbers option list.

Local Open Scope nat_scope.

(** ** Module constants *)

(** The constants at the top of the scripts.  They are read as globals by
    every function, so they are a class here and the functions read them
    the same way: [CHANNELS], [WAVE_LEN], ... *)
Class FrameLayout := {
  CHANNELS : nat;
  WAVE_LEN : nat;
  EVENT_HEADER_WORDS : nat;
  WORDS_PER_SAMPLE : nat
}.

(** The values the repository ships with. *)
Definition DT5560 : FrameLayout := {|
  CHANNELS := 32;
  WAVE_LEN := 40;
  EVENT_HEADER_WORDS := 16;
  WORDS_PER_SAMPLE := 16
|}.

(** [0xFFFFFFFF], the word searched for in [main]. *)
Definition SENTINEL : Z := 0xFFFFFFFF%Z.

(** ** Exceptions *)

Inductive exn := IndexError | ValueError.

(** What running a piece of the script gives: a value, an exception, or
    [OutOfFuel] when the model of an unbounded loop was cut short (the
    script itself would still be polling). *)
Inductive result (A : Type) :=
  | Ok (a : A)
  | Raise (e : exn)
  | OutOfFuel.
Arguments Ok {A} a.
Arguments Raise {A} e.
Arguments OutOfFuel {A}.

#[global] Instance result_ret : MRet result := fun A a => Ok a.
#[global] Instance result_bind : MBind result := fun A B f m =>
  match m with
  | Ok a => f a
  | Raise e => Raise e
  | OutOfFuel => OutOfFuel
  end.

(** ** Arrays *)

(** A [CHANNELS] x [WAVE_LEN] array of [uint16]: a list of rows. *)
Abbreviation matrix := (list (list Z)).

(** [np.zeros((rows, cols), dtype=np.uint16)] *)
Definition np_zeros (rows cols : nat) : matrix :=
  replicate rows (replicate cols 0%Z).

(** What a [uint16] array keeps of a value stored in it. *)
Definition uint16 (v : Z) : Z := (v mod 2 ^ 16)%Z.

(** [a[idx]] on a one-dimensional array. *)
Definition getitem (a : list Z) (idx : nat) : result Z :=
  match a !! idx with
  | Some w => Ok w
  | None => Raise IndexError
  end.

(** [waves[ch, i] = v] *)
Definition setitem (waves : matrix) (ch i : nat) (v : Z) : result matrix :=
  match waves !! ch with
  | Some row =>
      if decide (i < length row)
      then Ok (<[ch := <[i := uint16 v]> row]> waves)
      else Raise IndexError
  | None => Raise IndexError
  end.

(** [waves[ch, i]], [None] when out of range. *)
Definition cell (waves : matrix) (ch i : nat) : option Z :=
  row ← waves !! ch; row !! i.

(** ** decode_event *)

Section Decode.
Context `{L : FrameLayout}.

Definition EVENT_WORDS : nat :=
  EVENT_HEADER_WORDS + WORDS_PER_SAMPLE * WAVE_LEN.

Definition FIFO_CHUNK : nat := EVENT_WORDS * 2.

(** The two guarded stores of the inner loop body. *)
Definition store_pair (word : Z) (pair_ i : nat) (waves : matrix)
  : result matrix :=
  let chA := pair_ * 2 in
  let chB := pair_ * 2 + 1 in
  waves ← (if decide (chA < CHANNELS)
           then setitem waves chA i (Z.land word 0xFFFF)
           else Ok waves);
  if decide (chB < CHANNELS)
  then setitem waves chB i (Z.land (Z.shiftr word 16) 0xFFFF)
  else Ok waves.

(** [for pair in range(WORDS_PER_SAMPLE)], on the pairs still to visit.
    The [break] leaves this loop only. *)
Fixpoint pair_loop (wave_data : list Z) (i : nat) (pairs : list nat)
    (idx : nat) (waves : matrix) : result (nat * matrix) :=
  match pairs with
  | [] => Ok (idx, waves)
  | pair_ :: pairs' =>
      if decide (length wave_data <= idx) then Ok (idx, waves)
      else
        word ← getitem wave_data idx;
        waves' ← store_pair word pair_ i waves;
        pair_loop wave_data i pairs' (idx + 1) waves'
  end.

(** [for i in range(WAVE_LEN)], on the samples still to visit. *)
Fixpoint sample_loop (wave_data : list Z) (samples : list nat)
    (idx : nat) (waves : matrix) : result (nat * matrix) :=
  match samples with
  | [] => Ok (idx, waves)
  | i :: samples' =>
      '(idx', waves') ← pair_loop wave_data i (seq 0 WORDS_PER_SAMPLE) idx waves;
      sample_loop wave_data samples' idx' waves'
  end.

Definition decode_event (event : list Z) : result matrix :=
  let wave_data := drop EVENT_HEADER_WORDS event in
  let waves := np_zeros CHANNELS WAVE_LEN in
  '(_, waves) ← sample_loop wave_data (seq 0 WAVE_LEN) 0 waves;
  Ok waves.

End Decode.

(** ** The FIFO transport *)

(** One answer of the vendor call [NI_ReadFifo]: its return code, the
    count it stores in [valid_data], and the words it writes at the start
    of the caller's buffer. *)
Record fifo_answer := {
  status : Z;
  valid_data : nat;
  delivered : list Z
}.

(** The device seen from the script: the answer to the n-th FIFO read.
    The register writes of [start_digitizer] go to the same device and
    their return codes are dropped by the script; whatever they do to
    the FIFO is part of the answers. *)
Definition transport := nat -> fifo_answer.

(** [buffer] after the vendor call has written into it: the delivered
    words replace the head of the buffer, its size does not change. *)
Definition fill (buffer delivered : list Z) : list Z :=
  take (length buffer) (delivered ++ drop (length delivered) buffer).

(** [ReadFifo(buffer, count, ...)] at the n-th call: returns
    [(err, valid.value)], and the buffer as the call left it. *)
Definition ReadFifo (t : transport) (n : nat) (buffer : list Z)
  : Z * nat * list Z :=
  let a := t n in
  (status a, valid_data a, fill buffer (delivered a)).

(** [np.frombuffer(buf, dtype=np.uint32, count=valid)]: the first
    [valid] words, [ValueError] when the buffer holds fewer. *)
Definition np_frombuffer (buf : list Z) (count : nat) : result (list Z) :=
  if decide (count <= length buf) then Ok (take count buf)
  else Raise ValueError.

(** [np.where(data == w)[0]]: the positions of [w], in increasing order;
    [from] is the position of the head of [data]. *)
Fixpoint np_where_eq (data : list Z) (w : Z) (from : nat) : list nat :=
  match data with
  | [] => []
  | x :: data' =>
      if decide (x = w) then from :: np_where_eq data' w (S from)
      else np_where_eq data' w (S from)
  end.

(** ** main *)

(** The two messages printed for an event that is given up
    ([monitor.py] prints "event corrupted" for both). *)
Inductive message :=
  | EventWithoutHeader    (* Event without header. Ignored. *)
  | EventNotCompleted.    (* Event not completed. Ignored. *)

(** What [main] holds while it runs: how many FIFO reads were issued,
    how many times it slept, the array bound to the tree branch, the
    entries filled into the tree, and the messages printed for events
    given up.  The progress lines, the histograms (filled from the same
    [waves] as the tree) and the canvas are left out. *)
Record daq := {
  calls : nat;
  sleeps : nat;
  wave_array : matrix;
  tree : list matrix;
  stdout : list message
}.

(** The outcome of the header search on one buffer. *)
Inductive sync :=
  | NoHeaderFound
  | IncompleteFrame
  | Frame (event : list Z).

Definition N_EVENTS : nat := 100.

Section Main.
Context `{L : FrameLayout}.

(** The [while len(raw_words) < EVENT_WORDS] loop.  [err] is bound and
    never read. *)
Fixpoint accumulate (fuel : nat) (t : transport) (calls sleeps : nat)
    (raw_words : list Z) : result (list Z * nat * nat) :=
  if decide (length raw_words < EVENT_WORDS) then
    match fuel with
    | 0 => OutOfFuel
    | S fuel' =>
        let buf := replicate FIFO_CHUNK 0%Z in
        let '(err, valid, buf) := ReadFifo t calls buf in
        if decide (valid = 0)
        then accumulate fuel' t (S calls) (S sleeps) raw_words
        else
          arr ← np_frombuffer buf valid;
          accumulate fuel' t (S calls) sleeps (raw_words ++ arr)
    end
  else Ok (raw_words, calls, sleeps).

(** The header search: [hdr], the two tests, and the slice
    [data[idx: idx + EVENT_WORDS]]. *)
Definition extract_frame (data : list Z) : sync :=
  let hdr := np_where_eq data SENTINEL 0 in
  match hdr with
  | [] => NoHeaderFound
  | idx :: _ =>
      if decide (length data < idx + EVENT_WORDS) then IncompleteFrame
      else Frame (take EVENT_WORDS (drop idx data))
  end.

(** The rest of the loop body of [daqMonitor.py] once [data] is built:
    give the event up ([continue]) or decode it, copy it to the branch
    array and fill the tree.  (The body of [monitor.py] is
    [handle_buffer_monitor] below.) *)
Definition handle_buffer (data : list Z) (st : daq) : result daq :=
  match extract_frame data with
  | NoHeaderFound =>
      Ok {| calls := calls st; sleeps := sleeps st;
            wave_array := wave_array st; tree := tree st;
            stdout := stdout st ++ [EventWithoutHeader] |}
  | IncompleteFrame =>
      Ok {| calls := calls st; sleeps := sleeps st;
            wave_array := wave_array st; tree := tree st;
            stdout := stdout st ++ [EventNotCompleted] |}
  | Frame event =>
      waves ← decode_event event;
      Ok {| calls := calls st; sleeps := sleeps st;
            wave_array := waves; tree := tree st ++ [waves];
            stdout := stdout st |}
  end.

(** One turn of [for iev in range(N_EVENTS)]. *)
Definition event_body (fuel : nat) (t : transport) (st : daq)
  : result daq :=
  '(raw_words, calls', sleeps') ← accumulate fuel t (calls st) (sleeps st) [];
  let data := raw_words in
  handle_buffer data
    {| calls := calls'; sleeps := sleeps';
       wave_array := wave_array st; tree := tree st;
       stdout := stdout st |}.

(** [for iev in range(N_EVENTS)], on the events still to take. *)
Fixpoint event_loop (fuel : nat) (t : transport) (events : list nat)
    (st : daq) : result daq :=
  match events with
  | [] => Ok st
  | iev :: events' =>
      st' ← event_body fuel t st;
      event_loop fuel t events' st'
  end.

Definition initial : daq :=
  {| calls := 0; sleeps := 0;
     wave_array := np_zeros CHANNELS WAVE_LEN; tree := [];
     stdout := [] |}.

(** [main], from the connection on; [connect_err] is what
    [ConnectDevice] returned. *)
Definition main (connect_err : Z) (fuel : nat) (t : transport)
  : result daq :=
  if decide (connect_err ≠ 0%Z) then Ok initial
  else event_loop fuel t (seq 0 N_EVENTS) initial.

End Main.

(** ** Sample data *)

(** A frame of the shipped layout: the sentinel, fifteen header words,
    and 640 payload words that pack 1 (low half) and 2 (high half). *)
Definition sample_frame : list Z :=
  SENTINEL :: replicate 15 0%Z ++ replicate 640 0x00020001%Z.

(** The same frame with other header words. *)
Definition sample_frame' : list Z :=
  SENTINEL :: replicate 15 0xDEADBEEF%Z ++ replicate 640 0x00020001%Z.

(** A buffer of [EVENT_WORDS] words whose only sentinel sits at
    position 1: one word is missing for a whole frame. *)
Definition late_header : list Z :=
  0%Z :: SENTINEL :: replicate 654 0x00020001%Z.

(** A buffer of [EVENT_WORDS] words without a sentinel. *)
Definition no_header : list Z := replicate 656 0x00020001%Z.

Definition empty_read : fifo_answer :=
  {| status := 0; valid_data := 0; delivered := [] |}.

(** A read that fills the whole chunk: two frames. *)
Definition full_read : fifo_answer :=
  {| status := 0; valid_data := 1312;
     delivered := sample_frame ++ sample_frame |}.

(** A device that fills the chunk at every read. *)
Definition full_transport : transport := λ _, full_read.

(** A device that answers nothing and a full chunk in turn. *)
Definition alternating_transport : transport :=
  λ n, if Nat.even n then empty_read else full_read.

(** A device whose first read fails with status -1 and no word, and
    whose later reads fill the chunk. *)
Definition failing_transport : transport :=
  λ n, match n with
       | 0 => {| status := -1; valid_data := 0; delivered := [] |}
       | S _ => full_read
       end.

(** ** What the decoder is expected to put in a cell *)

(** The half of a packed word that belongs to channel [c]. *)
Definition half (c : nat) (w : Z) : Z :=
  if Nat.even c then Z.land w 0xFFFF else Z.land (Z.shiftr w 16) 0xFFFF.

Section Expected.
Context `{L : FrameLayout}.

(** Cell [(c, g)] once the first [n] payload words are consumed. *)
Definition expected (wave_data : list Z) (n c g : nat) : Z :=
  if decide (c / 2 < WORDS_PER_SAMPLE ∧ g * WORDS_PER_SAMPLE + c / 2 < n)
  then match wave_data !! (g * WORDS_PER_SAMPLE + c / 2) with
       | Some w => half c w
       | None => 0%Z
       end
  else 0%Z.

(** A [CHANNELS] x [WAVE_LEN] array of 16-bit values. *)
Definition well_shaped (waves : matrix) : Prop :=
  length waves = CHANNELS ∧
  Forall (λ row, length row = WAVE_LEN ∧
                 Forall (λ v, (0 <= v < 2 ^ 16)%Z) row) waves.

(** The loop invariant of the decoder. *)
Definition decoded_upto (wave_data : list Z) (n : nat) (waves : matrix)
  : Prop :=
  well_shaped waves ∧
  ∀ c g, c < CHANNELS → g < WAVE_LEN →
    cell waves c g = Some (expected wave_data n c g).

(** A frame as [main] slices it: [EVENT_WORDS] words, the first one
    the sentinel. *)
Definition is_frame (event : list Z) : Prop :=
  length event = EVENT_WORDS ∧ event !! 0 = Some SENTINEL.

(** [idx] is where the sentinel first occurs in [data]. *)
Definition first_sentinel (data : list Z) (idx : nat) : Prop :=
  data !! idx = Some SENTINEL ∧ ∀ j, j < idx → data !! j ≠ Some SENTINEL.

(** The valid words of the n-th FIFO read: the first [valid_data]
    words of the chunk buffer after the call. *)
Definition valid_words (t : transport) (n : nat) : list Z :=
  take (valid_data (t n))
       (fill (replicate FIFO_CHUNK 0%Z) (delivered (t n))).

(** Reads that deliver nothing and reads that deliver a full chunk,
    in turn. *)
Definition alternating (t : transport) : Prop :=
  ∀ n, (valid_data (t n) = 0 ∧ valid_data (t (S n)) = FIFO_CHUNK) ∨
       (valid_data (t n) = FIFO_CHUNK ∧ valid_data (t (S n)) = 0).

End Expected.

(** The same device with its status codes replaced. *)
Definition with_status (f : nat -> Z) (t : transport) : transport :=
  λ n, {| status := f n; valid_data := valid_data (t n);
          delivered := delivered (t n) |}.

(** ** Register writes *)

(** [c_uint32(v).value]: ctypes keeps the low 32 bits and raises nothing. *)
Definition c_uint32 (v : Z) : Z := (v mod 2 ^ 32)%Z.

(** [WriteReg(value, address, handle)]: the data and address words that
    reach [NI_WriteReg]. *)
Definition WriteReg (value address : Z) : Z * Z :=
  (c_uint32 value, c_uint32 address).

(** [start_digitizer()]: the three writes to the configuration register,
    in the order they are issued.  [cfg_addr] is
    [RF.SCI_REG_Digitizer_0_CONFIG], from the register file that is not
    part of the sources. *)
Definition start_digitizer `{L : FrameLayout} (cfg_addr : Z)
  : list (Z * Z) :=
  let CH := Z.of_nat CHANNELS in
  [ WriteReg (2 + Z.shiftl CH 8) cfg_addr;
    WriteReg (0 + Z.shiftl CH 8) cfg_addr;
    WriteReg (1 + Z.shiftl CH 8) cfg_addr ].

(** ** The minimum-amplitude histograms of monitor.py *)

(** [np.min(row)]: [ValueError] on an empty array. *)
Definition np_min (row : list Z) : result Z :=
  match row with
  | [] => Raise ValueError
  | v :: row' => Ok (foldl Z.min v row')
  end.

(** [waves[ch]] *)
Definition getrow (waves : matrix) (ch : nat) : result (list Z) :=
  match waves !! ch with
  | Some row => Ok row
  | None => Raise IndexError
  end.

(** [h1_min[ch].Fill(v)]: a histogram is the list of the values it was
    filled with, oldest first. *)
Definition Fill (h1_min : list (list Z)) (ch : nat) (v : Z)
  : result (list (list Z)) :=
  match h1_min !! ch with
  | Some entries => Ok (<[ch := entries ++ [v]]> h1_min)
  | None => Raise IndexError
  end.

(** [for ch in range(CHANNELS): min_val = np.min(waves[ch]);
    h1_min[ch].Fill(min_val)], on the channels still to visit. *)
Fixpoint fill_min (waves : matrix) (chs : list nat)
    (h1_min : list (list Z)) : result (list (list Z)) :=
  match chs with
  | [] => Ok h1_min
  | ch :: chs' =>
      row ← getrow waves ch;
      min_val ← np_min row;
      h1_min' ← Fill h1_min ch min_val;
      fill_min waves chs' h1_min'
  end.

(** ** The loop body of monitor.py *)

(** What [main] of [monitor.py] holds: what [daqMonitor.py] holds, and
    the minimum-amplitude histograms. *)
Record monitor := {
  acq : daq;
  h1_min : list (list Z)
}.

(** The rest of the loop body of [monitor.py] once [data] is built.  It
    differs from [handle_buffer] in the fill loop that runs after the
    copy to the branch array and before [tree.Fill()]. *)
Definition handle_buffer_monitor `{L : FrameLayout} (data : list Z)
    (st : monitor) : result monitor :=
  match extract_frame data with
  | NoHeaderFound =>
      Ok {| acq := {| calls := calls (acq st); sleeps := sleeps (acq st);
                      wave_array := wave_array (acq st);
                      tree := tree (acq st);
                      stdout := stdout (acq st) ++ [EventWithoutHeader] |};
            h1_min := h1_min st |}
  | IncompleteFrame =>
      Ok {| acq := {| calls := calls (acq st); sleeps := sleeps (acq st);
                      wave_array := wave_array (acq st);
                      tree := tree (acq st);
                      stdout := stdout (acq st) ++ [EventNotCompleted] |};
            h1_min := h1_min st |}
  | Frame event =>
      waves ← decode_event event;
      h1_min' ← fill_min waves (seq 0 CHANNELS) (h1_min st);
      Ok {| acq := {| calls := calls (acq st); sleeps := sleeps (acq st);
                      wave_array := waves;
                      tree := tree (acq st) ++ [waves];
                      stdout := stdout (acq st) |};
            h1_min := h1_min' |}
  end.

(** One turn of [for iev in range(N_EVENTS)] in [monitor.py]. *)
Definition event_body_monitor `{L : FrameLayout} (fuel : nat)
    (t : transport) (st : monitor) : result monitor :=
  '(raw_words, calls', sleeps') ←
    accumulate fuel t (calls (acq st)) (sleeps (acq st)) [];
  let data := raw_words in
  handle_buffer_monitor data
    {| acq := {| calls := calls'; sleeps := sleeps';
                 wave_array := wave_array (acq st);
                 tree := tree (acq st); stdout := stdout (acq st) |};
       h1_min := h1_min st |}.

(** [for iev in range(N_EVENTS)] in [monitor.py], on the events still
    to take. *)
Fixpoint event_loop_monitor `{L : FrameLayout} (fuel : nat)
    (t : transport) (events : list nat) (st : monitor) : result monitor :=
  match events with
  | [] => Ok st
  | iev :: events' =>
      st' ← event_body_monitor fuel t st;
      event_loop_monitor fuel t events' st'
  end.



(** ** More sample data *)

(** A 32-bit word. *)
Definition uint32 (w : Z) : Prop := (0 <= w < 2 ^ 32)%Z.

(** What [sample_frame] decodes to: 1 in the even channels, 2 in the odd
    ones. *)
Definition sample_waves : matrix :=
  concat (replicate 16 [replicate 40 1%Z; replicate 40 2%Z]).


(** ** What one turn of the event loop does to the state *)

(** The event was given up: one more message, nothing else touched. *)
Definition skipped (st st' : daq) : Prop :=
  tree st' = tree st ∧ wave_array st' = wave_array st ∧
  ∃ msg, stdout st' = stdout st ++ [msg].

(** The event was decoded: one more tree entry, which is also what the
    branch array now holds, and no message. *)
Definition stored `{L : FrameLayout} (st st' : daq) : Prop :=
  ∃ waves, well_shaped waves ∧ tree st' = tree st ++ [waves] ∧
           wave_array st' = waves ∧ stdout st' = stdout st.

(** The branch array holds the last entry of the tree (zeros before the
    first one), and every entry is a full array of 16-bit cells. *)
Definition branch_in_step `{L : FrameLayout} (st : daq) : Prop :=
  Forall well_shaped (tree st) ∧
  wave_array st = default (np_zeros CHANNELS WAVE_LEN) (last (tree st)).

(** A device whose first read fills the chunk with two frames and whose
    later reads deliver 656 words without a sentinel. *)
Definition mixed_transport : transport :=
  λ n, match n with
       | 0 => full_read
       | S _ => {| status := 0; valid_data := 656; delivered := no_header |}
       end.

Example decode_small :
  @decode_event {| CHANNELS := 4; WAVE_LEN := 2; EVENT_HEADER_WORDS := 2;
                   WORDS_PER_SAMPLE := 2 |}
    [SENTINEL; 0xDEADBEEF; 0x00020001; 0x00040003; 0x00060005; 0x00080007]%Z
  = Ok [[1; 5]; [2; 6]; [3; 7]; [4; 8]]%Z.
Proof. reflexivity. Qed.

(** ** Words and their halves *)

Lemma land_mask_range (w : Z) : (0 <= Z.land w 0xFFFF < 2 ^ 16)%Z.
Proof.
  change 0xFFFF%Z with (Z.ones 16). rewrite Z.land_ones by lia.
  apply Z.mod_pos_bound. lia.
Qed.

Lemma uint16_id (v : Z) : (0 <= v < 2 ^ 16)%Z → uint16 v = v.
Proof. intros Hv. unfold uint16. apply Z.mod_small. exact Hv. Qed.

Lemma half_range (c : nat) (w : Z) : (0 <= half c w < 2 ^ 16)%Z.
Proof. unfold half. destruct (Nat.even c); apply land_mask_range. Qed.

Lemma half_even (p : nat) (w : Z) : half (p * 2) w = Z.land w 0xFFFF.
Proof.
  unfold half. replace (p * 2) with (2 * p) by lia.
  by rewrite Nat.even_mul.
Qed.

Lemma half_odd (p : nat) (w : Z) :
  half (p * 2 + 1) w = Z.land (Z.shiftr w 16) 0xFFFF.
Proof.
  unfold half. replace (p * 2 + 1) with (S (2 * p)) by lia.
  by rewrite Nat.even_succ, Nat.odd_mul.
Qed.

Lemma packed_add (low16 high16 : Z) :
  (0 <= low16 < 2 ^ 16)%Z →
  Z.lor low16 (Z.shiftl high16 16) = (low16 + high16 * 2 ^ 16)%Z.
Proof.
  intros Hlo.
  assert (Hdisj : Z.land low16 (Z.shiftl high16 16) = 0%Z).
  { apply Z.bits_inj'. intros n Hn. rewrite Z.land_spec, Z.bits_0.
    destruct (decide (n < 16)%Z).
    - rewrite Z.shiftl_spec_low by lia. apply andb_false_r.
    - destruct (decide (low16 = 0)%Z) as [-> | ?].
      + by rewrite Z.bits_0.
      + rewrite (Z.bits_above_log2 low16 n); [done | lia |].
        apply Z.lt_le_trans with 16%Z; [| lia].
        apply Z.log2_lt_pow2; lia. }
  rewrite <- Z.lxor_lor by exact Hdisj.
  rewrite <- Z.add_nocarry_lxor by exact Hdisj.
  by rewrite Z.shiftl_mul_pow2 by lia.
Qed.

Lemma packed_low (low16 high16 : Z) :
  (0 <= low16 < 2 ^ 16)%Z →
  Z.land (Z.lor low16 (Z.shiftl high16 16)) 0xFFFF = low16.
Proof.
  intros Hlo. rewrite packed_add by exact Hlo.
  change 0xFFFF%Z with (Z.ones 16). rewrite Z.land_ones by lia.
  rewrite Z.mod_add by lia. by apply Z.mod_small.
Qed.

Lemma packed_high (low16 high16 : Z) :
  (0 <= low16 < 2 ^ 16)%Z → (0 <= high16 < 2 ^ 16)%Z →
  Z.land (Z.shiftr (Z.lor low16 (Z.shiftl high16 16)) 16) 0xFFFF = high16.
Proof.
  intros Hlo Hhi. rewrite packed_add by exact Hlo.
  rewrite Z.shiftr_div_pow2 by lia. rewrite Z.div_add by lia.
  rewrite Z.div_small by exact Hlo. rewrite Z.add_0_l.
  change 0xFFFF%Z with (Z.ones 16). rewrite Z.land_ones by lia.
  by apply Z.mod_small.
Qed.

(** ** Stores into the waveform array *)

Section DecodeProofs.
Context `{L : FrameLayout}.

Lemma np_zeros_shaped : well_shaped (np_zeros CHANNELS WAVE_LEN).
Proof.
  split; [apply length_replicate |].
  apply Forall_replicate. split; [apply length_replicate |].
  apply Forall_replicate. lia.
Qed.

Lemma np_zeros_cell (c g : nat) :
  c < CHANNELS → g < WAVE_LEN →
  cell (np_zeros CHANNELS WAVE_LEN) c g = Some 0%Z.
Proof.
  intros Hc Hg. unfold cell, np_zeros.
  rewrite lookup_replicate_2 by done. simpl.
  by rewrite lookup_replicate_2.
Qed.

Lemma setitem_spec (waves : matrix) (ch i : nat) (v : Z) :
  well_shaped waves → ch < CHANNELS → i < WAVE_LEN →
  (0 <= v < 2 ^ 16)%Z →
  ∃ waves', setitem waves ch i v = Ok waves' ∧ well_shaped waves' ∧
    ∀ c g, cell waves' c g =
           if decide (c = ch ∧ g = i) then Some v else cell waves c g.
Proof.
  intros [Hlen Hrows] Hch Hi Hv.
  destruct (lookup_lt_is_Some_2 waves ch) as [row Hrow]; [lia |].
  destruct (Forall_lookup_1 _ _ _ _ Hrows Hrow) as [Hrl Hrv].
  unfold setitem. rewrite Hrow. rewrite decide_True by lia.
  rewrite uint16_id by exact Hv.
  eexists. split; [reflexivity |]. split.
  - split; [by rewrite length_insert |].
    apply Forall_insert; [exact Hrows |].
    split; [by rewrite length_insert |].
    by apply Forall_insert.
  - intros c g. unfold cell.
    destruct (decide (c = ch)) as [-> | Hne].
    + rewrite list_lookup_insert_eq by lia. rewrite Hrow. simpl.
      destruct (decide (g = i)) as [-> | Hgi].
      * rewrite decide_True by done. apply list_lookup_insert_eq. lia.
      * rewrite decide_False by tauto. by apply list_lookup_insert_ne.
    + rewrite decide_False by tauto.
      by rewrite list_lookup_insert_ne.
Qed.

(** The guard of the source: a channel at or beyond [CHANNELS] is not
    stored, and the array is left as it was. *)
Lemma store_pair_dropped (word : Z) (p i : nat) (waves : matrix) :
  CHANNELS <= p * 2 → store_pair word p i waves = Ok waves.
Proof.
  intros Hp. unfold store_pair. rewrite decide_False by lia. simpl.
  by rewrite decide_False by lia.
Qed.

Lemma store_pair_spec (word : Z) (p i : nat) (waves : matrix) :
  well_shaped waves → i < WAVE_LEN →
  ∃ waves', store_pair word p i waves = Ok waves' ∧ well_shaped waves' ∧
    ∀ c g, c < CHANNELS →
      cell waves' c g =
      if decide (g = i ∧ c / 2 = p) then Some (half c word)
      else cell waves c g.
Proof.
  intros Hsh Hi. unfold store_pair.
  assert (HA : ∃ wA, (if decide (p * 2 < CHANNELS)
                      then setitem waves (p * 2) i (Z.land word 0xFFFF)
                      else Ok waves) = Ok wA ∧ well_shaped wA ∧
            ∀ c g, c < CHANNELS → cell wA c g =
              if decide (c = p * 2 ∧ g = i) then Some (half c word)
              else cell waves c g).
  { destruct (decide (p * 2 < CHANNELS)) as [HlA | HgeA].
    - destruct (setitem_spec waves (p * 2) i (Z.land word 0xFFFF))
        as (wA & -> & HshA & HcA); auto using land_mask_range.
      exists wA. split; [done |]. split; [done |].
      intros c g _. rewrite HcA.
      destruct (decide (c = p * 2 ∧ g = i)) as [[-> _] | ?]; [| done].
      by rewrite half_even.
    - exists waves. split; [done |]. split; [done |].
      intros c g Hc. rewrite decide_False by lia. done. }
  destruct HA as (wA & -> & HshA & HcA). simpl.
  assert (Hdiv : ∀ c, c / 2 = p ↔ c = p * 2 ∨ c = p * 2 + 1).
  { intros c. pose proof (Nat.div_mod_eq c 2).
    pose proof (Nat.mod_upper_bound c 2). lia. }
  destruct (decide (p * 2 + 1 < CHANNELS)) as [HlB | HgeB].
  - destruct (setitem_spec wA (p * 2 + 1) i
                (Z.land (Z.shiftr word 16) 0xFFFF))
      as (wB & -> & HshB & HcB); auto using land_mask_range.
    exists wB. split; [done |]. split; [done |].
    intros c g Hc. rewrite HcB, HcA by done.
    destruct (decide (c = p * 2 + 1 ∧ g = i)) as [[-> ->] | HnB].
    + rewrite decide_True by (split; [done | apply Hdiv; auto]).
      by rewrite half_odd.
    + destruct (decide (c = p * 2 ∧ g = i)) as [[-> ->] | HnA].
      * by rewrite decide_True by (split; [done | apply Hdiv; auto]).
      * rewrite decide_False; [done |].
        intros [-> Hd]. apply Hdiv in Hd. lia.
  - exists wA. split; [done |]. split; [done |].
    intros c g Hc. rewrite HcA by done.
    destruct (decide (c = p * 2 ∧ g = i)) as [[-> ->] | HnA].
    + by rewrite decide_True by (split; [done | apply Hdiv; auto]).
    + rewrite decide_False; [done |].
        intros [-> Hd]. apply Hdiv in Hd. lia.
Qed.

(** ** The loops of decode_event *)

Lemma same_word (g q i p : nat) :
  q < WORDS_PER_SAMPLE → p < WORDS_PER_SAMPLE →
  g * WORDS_PER_SAMPLE + q = i * WORDS_PER_SAMPLE + p → g = i ∧ q = p.
Proof.
  intros Hq Hp Heq.
  assert (g = i) as ->; [| lia].
  destruct (Nat.lt_trichotomy g i) as [Hlt | [-> | Hgt]]; [| done |]; nia.
Qed.

Lemma decoded_upto_zeros (wave_data : list Z) :
  decoded_upto wave_data 0 (np_zeros CHANNELS WAVE_LEN).
Proof.
  split; [apply np_zeros_shaped |].
  intros c g Hc Hg. rewrite np_zeros_cell by done.
  unfold expected. by rewrite decide_False by lia.
Qed.

Lemma pair_loop_spec (wave_data : list Z) (i : nat) :
  i < WAVE_LEN →
  ∀ n p idx waves,
    p + n <= WORDS_PER_SAMPLE →
    decoded_upto wave_data idx waves →
    idx <= length wave_data →
    idx = i * WORDS_PER_SAMPLE + p ∨ idx = length wave_data →
    ∃ idx' waves',
      pair_loop wave_data i (seq p n) idx waves = Ok (idx', waves') ∧
      decoded_upto wave_data idx' waves' ∧
      idx' <= length wave_data ∧
      (idx' = i * WORDS_PER_SAMPLE + p + n ∨ idx' = length wave_data).
Proof.
  intros Hi. induction n as [| n IH]; intros p idx waves Hpn Hinv Hle Hidx.
  - exists idx, waves. simpl. repeat split; try apply Hinv; lia.
  - simpl. destruct (decide (length wave_data <= idx)) as [Hbrk | Hin].
    + exists idx, waves. repeat split; try apply Hinv; lia.
    + destruct Hidx as [Hidx | Hidx]; [| lia].
      destruct (lookup_lt_is_Some_2 wave_data idx) as [word Hword]; [lia |].
      unfold getitem. rewrite Hword. simpl.
      destruct Hinv as [Hsh Hcells].
      destruct (store_pair_spec word p i waves Hsh Hi)
        as (waves1 & -> & Hsh1 & Hc1).
      simpl.
      destruct (IH (S p) (idx + 1) waves1) as (idx' & waves' & Hrun & Hinv' & Hle' & Hidx');
        [lia | | lia | lia |].
      * split; [done |]. intros c g Hc Hg. rewrite Hc1 by done.
        unfold expected.
        destruct (decide (g = i ∧ c / 2 = p)) as [[-> Hcp] | Hother].
        -- rewrite decide_True by lia.
           replace (i * WORDS_PER_SAMPLE + c / 2) with idx by lia.
           by rewrite Hword.
        -- rewrite Hcells by done. unfold expected.
           destruct (decide (c / 2 < WORDS_PER_SAMPLE ∧
                             g * WORDS_PER_SAMPLE + c / 2 < idx)) as [Hold | Hnew].
           ++ by rewrite decide_True by lia.
           ++ rewrite decide_False; [done |]. intros [Hq Hlt].
              assert (g * WORDS_PER_SAMPLE + c / 2 = i * WORDS_PER_SAMPLE + p)
                as Heq by lia.
              apply same_word in Heq; [tauto | done | lia].
      * exists idx', waves'. rewrite Hrun. repeat split; try apply Hinv'; lia.
Qed.

Lemma sample_loop_spec (wave_data : list Z) :
  ∀ m i idx waves,
    i + m <= WAVE_LEN →
    decoded_upto wave_data idx waves →
    idx <= length wave_data →
    idx = i * WORDS_PER_SAMPLE ∨ idx = length wave_data →
    ∃ idx' waves',
      sample_loop wave_data (seq i m) idx waves = Ok (idx', waves') ∧
      decoded_upto wave_data idx' waves' ∧
      idx' <= length wave_data ∧
      (idx' = (i + m) * WORDS_PER_SAMPLE ∨ idx' = length wave_data).
Proof.
  induction m as [| m IH]; intros i idx waves Him Hinv Hle Hidx.
  - exists idx, waves. simpl. repeat split; try apply Hinv; lia.
  - simpl.
    destruct (pair_loop_spec wave_data i ltac:(lia) WORDS_PER_SAMPLE 0
                idx waves) as (idx1 & waves1 & -> & Hinv1 & Hle1 & Hidx1);
      [lia | done | lia | lia |].
    simpl.
    destruct (IH (S i) idx1 waves1) as (idx' & waves' & Hrun & Hinv' & Hle' & Hidx');
      [lia | done | lia | lia |].
    exists idx', waves'. rewrite Hrun. repeat split; try apply Hinv'; lia.
Qed.

(** What [decode_event] returns on any sequence of words. *)
Lemma decode_event_spec (event : list Z) :
  ∃ waves,
    decode_event event = Ok waves ∧ well_shaped waves ∧
    ∀ c g, c < CHANNELS → g < WAVE_LEN →
      cell waves c g =
      Some (expected (drop EVENT_HEADER_WORDS event)
              (length (drop EVENT_HEADER_WORDS event)) c g).
Proof.
  unfold decode_event.
  set (wave_data := drop EVENT_HEADER_WORDS event).
  destruct (sample_loop_spec wave_data WAVE_LEN 0 0
              (np_zeros CHANNELS WAVE_LEN))
    as (idx' & waves' & -> & [Hsh Hcells] & Hle & Hidx);
    [lia | apply decoded_upto_zeros | lia | lia |].
  simpl. exists waves'. split; [done |]. split; [done |].
  intros c g Hc Hg. rewrite Hcells by done.
  destruct Hidx as [-> | ->]; [| done].
  f_equal. unfold expected.
  destruct (decide (c / 2 < WORDS_PER_SAMPLE)) as [Hq | Hq].
  - rewrite !decide_True; [done | nia | nia].
  - rewrite !decide_False; [done | tauto | tauto].
Qed.

End DecodeProofs.

(** ** The decoder *)

Section DecodeClaims.
Context `{L : FrameLayout}.

(** Any word sequence: the cell of channel [c] at sample [g] holds the
    half of payload word [g * WORDS_PER_SAMPLE + c / 2] that belongs to
    [c] when that word exists, and zero otherwise. *)
Lemma decode_event_cells (event : list Z) :
  ∃ waves,
    decode_event event = Ok waves ∧ well_shaped waves ∧
    ∀ c g, c < CHANNELS → g < WAVE_LEN →
      cell waves c g =
      Some (if decide (c / 2 < WORDS_PER_SAMPLE)
            then match event !! (EVENT_HEADER_WORDS +
                                 (g * WORDS_PER_SAMPLE + c / 2)) with
                 | Some w => half c w
                 | None => 0%Z
                 end
            else 0%Z).
Proof.
  destruct (decode_event_spec event) as (waves & Hrun & Hsh & Hcells).
  exists waves. split; [done |]. split; [done |].
  intros c g Hc Hg. rewrite Hcells by done. f_equal.
  unfold expected. rewrite lookup_drop.
  destruct (decide (c / 2 < WORDS_PER_SAMPLE)) as [Hq | Hq].
  - destruct (event !! (EVENT_HEADER_WORDS +
                        (g * WORDS_PER_SAMPLE + c / 2))) as [w |] eqn:Hw.
    + rewrite decide_True; [done |]. split; [done |].
      apply lookup_lt_Some in Hw. rewrite length_drop. lia.
    + by destruct (decide _).
  - by rewrite decide_False by tauto.
Qed.

(** C1. Decode correctness: whenever the payload word of a frame at
    group [g] and place [p] is [low16 | high16 << 16] for two 16-bit
    values, decoding the frame gives an array with [low16] in channel
    [2p] and [high16] in channel [2p+1], both at sample [g].  The
    channel count is twice the number of words per group, as in the
    scripts. *)
Theorem decode_event_unpacks (event : list Z) (g p : nat)
    (low16 high16 : Z) :
  CHANNELS = 2 * WORDS_PER_SAMPLE →
  is_frame event →
  g < WAVE_LEN → p < WORDS_PER_SAMPLE →
  (0 <= low16 < 2 ^ 16)%Z → (0 <= high16 < 2 ^ 16)%Z →
  event !! (EVENT_HEADER_WORDS + (g * WORDS_PER_SAMPLE + p)) =
    Some (Z.lor low16 (Z.shiftl high16 16)) →
  ∃ waves,
    decode_event event = Ok waves ∧
    cell waves (2 * p) g = Some low16 ∧
    cell waves (2 * p + 1) g = Some high16.
Proof.
  intros Hch _ Hg Hp Hlo Hhi Hw.
  destruct (decode_event_cells event) as (waves & Hrun & _ & Hcells).
  exists waves. split; [done |].
  assert (HdA : (2 * p) / 2 = p).
  { rewrite Nat.mul_comm. apply Nat.div_mul. lia. }
  assert (HdB : (2 * p + 1) / 2 = p).
  { symmetry. apply (Nat.div_unique _ 2 p 1); lia. }
  split.
  - rewrite Hcells by lia. rewrite HdA, decide_True by done. rewrite Hw.
    replace (2 * p) with (p * 2) by lia. rewrite half_even.
    f_equal. by apply packed_low.
  - rewrite Hcells by lia. rewrite HdB, decide_True by done. rewrite Hw.
    replace (2 * p + 1) with (p * 2 + 1) by lia. rewrite half_odd.
    f_equal. by apply packed_high.
Qed.

(** C8. Decoding is total on frames: for every frame of [EVENT_WORDS]
    words, whatever the layout constants, [decode_event] returns (no
    [IndexError]) an array of [CHANNELS] rows of [WAVE_LEN] 16-bit
    cells; it has no row at or beyond [CHANNELS], and a store whose
    channel index is at or beyond [CHANNELS] is skipped by the guard:
    with [chB] out of range only [chA] is stored, with [chA] out of
    range too the array is left as it is. *)
Theorem decode_event_total (event : list Z) :
  is_frame event →
  ∃ waves,
    decode_event event = Ok waves ∧ well_shaped waves ∧
    (∀ c g, CHANNELS <= c → cell waves c g = None) ∧
    (∀ word p i w, CHANNELS <= p * 2 + 1 →
       store_pair word p i w =
       if decide (p * 2 < CHANNELS)
       then setitem w (p * 2) i (Z.land word 0xFFFF)
       else Ok w).
Proof.
  intros _.
  destruct (decode_event_cells event) as (waves & Hrun & Hsh & _).
  exists waves. split; [done |]. split; [done |]. split.
  - intros c g Hc. unfold cell. destruct Hsh as [Hlen _].
    by rewrite lookup_ge_None_2 by lia.
  - intros word p i w Hp. unfold store_pair.
    destruct (decide (p * 2 < CHANNELS)); simpl.
    + destruct (setitem w (p * 2) i (Z.land word 0xFFFF)); simpl;
        [by rewrite decide_False by lia | done | done].
    + by rewrite decide_False by lia.
Qed.

Lemma drop_ext (n : nat) (e1 e2 : list Z) :
  length e1 = length e2 →
  (∀ k, n <= k < length e1 → e1 !! k = e2 !! k) →
  drop n e1 = drop n e2.
Proof.
  intros Hlen Hpay. apply list_eq. intros k. rewrite !lookup_drop.
  destruct (decide (n + k < length e1)) as [Hin | Hout].
  - apply Hpay. lia.
  - rewrite !lookup_ge_None_2; [done | lia | lia].
Qed.

(** C9. The header words do not reach the output: two frames of
    [EVENT_WORDS] words with the same word 0 and the same payload words
    (positions [EVENT_HEADER_WORDS] and up) decode to the same array,
    whatever their words 1 .. [EVENT_HEADER_WORDS - 1] are. *)
Theorem decode_event_ignores_header (e1 e2 : list Z) :
  length e1 = EVENT_WORDS → length e2 = EVENT_WORDS →
  e1 !! 0 = e2 !! 0 →
  (∀ k, EVENT_HEADER_WORDS <= k < EVENT_WORDS → e1 !! k = e2 !! k) →
  decode_event e1 = decode_event e2.
Proof.
  intros Hl1 Hl2 _ Hpay. unfold decode_event.
  rewrite (drop_ext EVENT_HEADER_WORDS e1 e2); [done | congruence |].
  intros k Hk. apply Hpay. lia.
Qed.

(** C10. A sequence shorter than [EVENT_WORDS] words, the empty one
    included: [decode_event] still returns an array of [CHANNELS] rows
    of [WAVE_LEN] 16-bit cells, and a cell whose payload word is not
    there (or that no word of a group maps to) is zero. *)
Theorem decode_event_short (event : list Z) :
  length event < EVENT_WORDS →
  ∃ waves,
    decode_event event = Ok waves ∧ well_shaped waves ∧
    ∀ c g, c < CHANNELS → g < WAVE_LEN →
      length event <= EVENT_HEADER_WORDS + (g * WORDS_PER_SAMPLE + c / 2)
      ∨ WORDS_PER_SAMPLE <= c / 2 →
      cell waves c g = Some 0%Z.
Proof.
  intros _.
  destruct (decode_event_cells event) as (waves & Hrun & Hsh & Hcells).
  exists waves. split; [done |]. split; [done |].
  intros c g Hc Hg Hmiss. rewrite Hcells by done. f_equal.
  destruct (decide (c / 2 < WORDS_PER_SAMPLE)) as [Hq | Hq]; [| done].
  destruct Hmiss as [Hshort | Hnone]; [| lia].
  by rewrite lookup_ge_None_2 by lia.
Qed.

End DecodeClaims.

Lemma decode_event_unpacks_witness :
  ∃ waves,
    @decode_event DT5560 sample_frame = Ok waves ∧
    cell waves (2 * 5) 3 = Some 1%Z ∧ cell waves (2 * 5 + 1) 3 = Some 2%Z.
Proof.
  apply (@decode_event_unpacks DT5560 sample_frame 3 5 1 2).
  - reflexivity.
  - split; reflexivity.
  - vm_compute; lia.
  - vm_compute; lia.
  - lia.
  - lia.
  - reflexivity.
Defined.

Lemma decode_event_total_witness :
  ∃ waves, @decode_event DT5560 sample_frame = Ok waves ∧
           @well_shaped DT5560 waves.
Proof.
  destruct (@decode_event_total DT5560 sample_frame) as (waves & H1 & H2 & _).
  - split; reflexivity.
  - exists waves. by split.
Defined.

Lemma decode_event_ignores_header_witness :
  @decode_event DT5560 sample_frame = @decode_event DT5560 sample_frame'.
Proof.
  apply (@decode_event_ignores_header DT5560 sample_frame sample_frame').
  - reflexivity.
  - reflexivity.
  - reflexivity.
  - intros k Hk. change (16 <= k < 656) in Hk.
    change sample_frame with ((SENTINEL :: replicate 15 0%Z) ++ replicate 640 0x00020001%Z).
    change sample_frame' with ((SENTINEL :: replicate 15 0xDEADBEEF%Z) ++ replicate 640 0x00020001%Z).
    rewrite !lookup_app_r by (simpl; lia). reflexivity.
Defined.

Lemma decode_event_short_witness :
  ∃ waves, @decode_event DT5560 [] = Ok waves ∧ @well_shaped DT5560 waves ∧
           cell waves 31 39 = Some 0%Z.
Proof.
  destruct (@decode_event_short DT5560 []) as (waves & H1 & H2 & H3).
  - vm_compute; lia.
  - exists waves. split; [done |]. split; [done |].
    apply H3; vm_compute; lia.
Defined.

(** The guard at work: three channels, two words per group.  The high
    half of the second word of each group has no channel and is dropped. *)
Example decode_guard :
  @decode_event {| CHANNELS := 3; WAVE_LEN := 2; EVENT_HEADER_WORDS := 2;
                   WORDS_PER_SAMPLE := 2 |}
    [SENTINEL; 0xDEADBEEF; 0x00020001; 0x00040003; 0x00060005; 0x00080007]%Z
  = Ok [[1; 5]; [2; 6]; [3; 7]]%Z.
Proof. reflexivity. Qed.

(** ** The header search *)

Lemma np_where_eq_none (data : list Z) (w : Z) (from : nat) :
  (∀ j, data !! j ≠ Some w) → np_where_eq data w from = [].
Proof.
  revert from. induction data as [| x data IH]; intros from Hno; [done |].
  simpl. destruct (decide (x = w)) as [-> | Hx].
  - by destruct (Hno 0).
  - apply IH. intros j. apply (Hno (S j)).
Qed.

Lemma np_where_eq_first (data : list Z) (w : Z) (from idx : nat) :
  data !! idx = Some w → (∀ j, j < idx → data !! j ≠ Some w) →
  ∃ later, np_where_eq data w from = (from + idx) :: later.
Proof.
  revert from idx.
  induction data as [| x data IH]; intros from idx Hidx Hbefore; [done |].
  simpl. destruct idx as [| idx].
  - simpl in Hidx. injection Hidx as ->. rewrite decide_True by done.
    rewrite Nat.add_0_r. by eexists.
  - rewrite decide_False.
    + destruct (IH (S from) idx) as [later Hlater]; [done | |].
      * intros j Hj. apply (Hbefore (S j)). lia.
      * exists later. rewrite Hlater. f_equal. lia.
    + intros ->. by apply (Hbefore 0); [lia |].
Qed.

Section SyncClaims.
Context `{L : FrameLayout}.

Lemma extract_frame_none (data : list Z) :
  (∀ j, data !! j ≠ Some SENTINEL) → extract_frame data = NoHeaderFound.
Proof.
  intros Hno. unfold extract_frame. by rewrite np_where_eq_none.
Qed.

Lemma extract_frame_first (data : list Z) (idx : nat) :
  first_sentinel data idx →
  extract_frame data =
  if decide (length data < idx + EVENT_WORDS) then IncompleteFrame
  else Frame (take EVENT_WORDS (drop idx data)).
Proof.
  intros [Hidx Hbefore]. unfold extract_frame.
  by destruct (np_where_eq_first data SENTINEL 0 idx Hidx Hbefore)
    as [later ->].
Qed.

Lemma first_sentinel_after_junk (junk frame tail : list Z) :
  Forall (λ w, w ≠ SENTINEL) junk → is_frame frame →
  first_sentinel (junk ++ frame ++ tail) (length junk).
Proof.
  intros Hjunk [Hlen Hs]. split.
  - rewrite lookup_app_r by lia. rewrite Nat.sub_diag.
    by rewrite lookup_app_l by (apply lookup_lt_Some in Hs; lia).
  - intros j Hj. rewrite lookup_app_l by lia. intros Hw.
    by apply (Forall_lookup_1 _ _ _ _ Hjunk Hw).
Qed.

(** C3. Sentinel location invariance: a buffer made of words that are
    not the sentinel, then a frame, then anything.  The first sentinel
    of the buffer is the first word of the frame, the header search
    returns that frame (sentinels further on, inside the frame or after
    it, play no part), and the loop body does with the buffer what it
    does without the leading words: it decodes the frame and fills the
    tree with the resulting array. *)
Theorem junk_before_frame (junk frame tail : list Z) :
  Forall (λ w, w ≠ SENTINEL) junk → is_frame frame →
  first_sentinel (junk ++ frame ++ tail) (length junk) ∧
  extract_frame (junk ++ frame ++ tail) = Frame frame ∧
  extract_frame (frame ++ tail) = Frame frame ∧
  ∀ st,
    handle_buffer (junk ++ frame ++ tail) st =
      handle_buffer (frame ++ tail) st ∧
    handle_buffer (junk ++ frame ++ tail) st =
      (waves ← decode_event frame;
       Ok {| calls := calls st; sleeps := sleeps st;
             wave_array := waves; tree := tree st ++ [waves];
             stdout := stdout st |}).
Proof.
  intros Hjunk Hframe.
  pose proof (first_sentinel_after_junk junk frame tail Hjunk Hframe) as H1.
  pose proof (first_sentinel_after_junk [] frame tail (Forall_nil_2 _) Hframe)
    as H2.
  simpl in H2. destruct Hframe as [Hlen Hs].
  assert (E1 : extract_frame (junk ++ frame ++ tail) = Frame frame).
  { rewrite (extract_frame_first _ _ H1).
    rewrite decide_False by (rewrite !length_app; lia).
    rewrite drop_app_length. rewrite take_app_length' by done. done. }
  assert (E2 : extract_frame (frame ++ tail) = Frame frame).
  { rewrite (extract_frame_first _ _ H2).
    rewrite decide_False by (rewrite !length_app; lia).
    rewrite drop_0. rewrite take_app_length' by done. done. }
  split; [done |]. split; [done |]. split; [done |].
  intros st. unfold handle_buffer. by rewrite E1, E2.
Qed.

(** C4. Incomplete-frame detection: when the first sentinel of the
    buffer is at [idx] and fewer than [EVENT_WORDS] words are left from
    there, the header search answers [IncompleteFrame]; the loop body
    prints its message and decodes nothing: the branch array and the
    tree are as before, and the loop goes on with the next event. *)
Theorem incomplete_frame_skipped (data : list Z) (idx : nat) :
  first_sentinel data idx → length data < idx + EVENT_WORDS →
  extract_frame data = IncompleteFrame ∧
  (∀ st, handle_buffer data st =
         Ok {| calls := calls st; sleeps := sleeps st;
               wave_array := wave_array st; tree := tree st;
               stdout := stdout st ++ [EventNotCompleted] |}) ∧
  ∀ fuel t st calls' sleeps' iev events,
    accumulate fuel t (calls st) (sleeps st) [] = Ok (data, calls', sleeps') →
    ∃ st', event_body fuel t st = Ok st' ∧
           tree st' = tree st ∧ wave_array st' = wave_array st ∧
           event_loop fuel t (iev :: events) st =
             event_loop fuel t events st'.
Proof.
  intros Hfirst Hshort.
  assert (E : extract_frame data = IncompleteFrame).
  { rewrite (extract_frame_first _ _ Hfirst). by rewrite decide_True. }
  split; [done |]. split.
  - intros st. unfold handle_buffer. by rewrite E.
  - intros fuel t st calls' sleeps' iev events Hacc.
    eexists. simpl. unfold event_body. rewrite Hacc. simpl.
    unfold handle_buffer. rewrite E. simpl. done.
Qed.

(** C5. No-sentinel detection: a buffer without the word [0xFFFFFFFF]
    makes the header search answer [NoHeaderFound]; the loop body
    prints its message and decodes nothing: the branch array and the
    tree are as before, no exception is raised, and the loop goes on
    with the next event. *)
Theorem no_header_skipped (data : list Z) :
  (∀ j, data !! j ≠ Some SENTINEL) →
  extract_frame data = NoHeaderFound ∧
  (∀ st, handle_buffer data st =
         Ok {| calls := calls st; sleeps := sleeps st;
               wave_array := wave_array st; tree := tree st;
               stdout := stdout st ++ [EventWithoutHeader] |}) ∧
  ∀ fuel t st calls' sleeps' iev events,
    accumulate fuel t (calls st) (sleeps st) [] = Ok (data, calls', sleeps') →
    ∃ st', event_body fuel t st = Ok st' ∧
           tree st' = tree st ∧ wave_array st' = wave_array st ∧
           event_loop fuel t (iev :: events) st =
             event_loop fuel t events st'.
Proof.
  intros Hno.
  pose proof (extract_frame_none data Hno) as E.
  split; [done |]. split.
  - intros st. unfold handle_buffer. by rewrite E.
  - intros fuel t st calls' sleeps' iev events Hacc.
    eexists. simpl. unfold event_body. rewrite Hacc. simpl.
    unfold handle_buffer. rewrite E. simpl. done.
Qed.

End SyncClaims.

Lemma junk_before_frame_witness :
  @extract_frame DT5560 ([0; 1; 2]%Z ++ sample_frame ++ [SENTINEL; 5%Z]) =
    Frame sample_frame.
Proof.
  apply (@junk_before_frame DT5560 [0; 1; 2]%Z sample_frame [SENTINEL; 5%Z]).
  - repeat constructor; vm_compute; discriminate.
  - split; reflexivity.
Defined.

Lemma incomplete_frame_skipped_witness :
  @extract_frame DT5560 late_header = IncompleteFrame.
Proof.
  apply (@incomplete_frame_skipped DT5560 late_header 1).
  - split; [reflexivity |].
    intros j Hj. assert (j = 0) as -> by lia. vm_compute. discriminate.
  - vm_compute; lia.
Defined.

Lemma no_header_skipped_witness :
  @extract_frame DT5560 no_header = NoHeaderFound.
Proof.
  apply (@no_header_skipped DT5560 no_header).
  intros j Hw. unfold no_header in Hw.
  apply lookup_replicate_1 in Hw. destruct Hw as [Hw _].
  vm_compute in Hw. discriminate.
Defined.

(** ** The accumulator *)

Section AccumulateClaims.
Context `{L : FrameLayout}.

Lemma accumulate_eq (fuel : nat) (t : transport) (c s : nat)
    (raw_words : list Z) :
  accumulate fuel t c s raw_words =
  if decide (length raw_words < EVENT_WORDS) then
    match fuel with
    | 0 => OutOfFuel
    | S fuel' =>
        if decide (valid_data (t c) = 0)
        then accumulate fuel' t (S c) (S s) raw_words
        else
          arr ← np_frombuffer
                  (fill (replicate FIFO_CHUNK 0%Z) (delivered (t c)))
                  (valid_data (t c));
          accumulate fuel' t (S c) s (raw_words ++ arr)
    end
  else Ok (raw_words, c, s).
Proof. by destruct fuel. Qed.

Lemma length_fill (buffer delivered : list Z) :
  length (fill buffer delivered) = length buffer.
Proof.
  unfold fill. rewrite length_take, length_app, length_drop. lia.
Qed.

Lemma valid_words_empty (t : transport) (n : nat) :
  valid_data (t n) = 0 → valid_words t n = [].
Proof. intros H. unfold valid_words. by rewrite H. Qed.

(** What the loop has when it returns. *)
Lemma accumulate_spec (t : transport) :
  ∀ fuel c s raw_words raw c' s',
    accumulate fuel t c s raw_words = Ok (raw, c', s') →
    c <= c' ∧ EVENT_WORDS <= length raw ∧
    raw = raw_words ++ concat (valid_words t <$> seq c (c' - c)).
Proof.
  induction fuel as [| fuel IH]; intros c s raw_words raw c' s';
    rewrite accumulate_eq;
    destruct (decide (length raw_words < EVENT_WORDS)) as [Hless | Hfull];
    intros Hrun; try discriminate.
  - injection Hrun as <- <- <-. rewrite Nat.sub_diag. simpl.
    rewrite app_nil_r. repeat split; lia.
  - destruct (decide (valid_data (t c) = 0)) as [Hzero | Hsome].
    + apply IH in Hrun as (Hc & Hlen & ->).
      split; [lia |]. split; [done |].
      replace (c' - c) with (S (c' - S c)) by lia. simpl.
      by rewrite valid_words_empty.
    + unfold np_frombuffer in Hrun.
      destruct (decide (valid_data (t c) <= _)); [| discriminate].
      simpl in Hrun. apply IH in Hrun as (Hc & Hlen & ->).
      split; [lia |]. split; [done |].
      replace (c' - c) with (S (c' - S c)) by lia. simpl.
      by rewrite <- app_assoc.
  - injection Hrun as <- <- <-. rewrite Nat.sub_diag. simpl.
    rewrite app_nil_r. repeat split; lia.
Qed.

(** C6. When the accumulator returns, its buffer holds at least
    [EVENT_WORDS] words, it is the valid words of the reads the loop
    issued, one read after the other, and the loop body hands the whole
    of it to the header search ([data] is [raw_words], not a prefix). *)
Theorem accumulate_returns_whole (fuel : nat) (t : transport) (st : daq)
    (raw : list Z) (calls' sleeps' : nat) :
  accumulate fuel t (calls st) (sleeps st) [] = Ok (raw, calls', sleeps') →
  EVENT_WORDS <= length raw ∧
  calls st <= calls' ∧
  raw = concat (valid_words t <$> seq (calls st) (calls' - calls st)) ∧
  event_body fuel t st =
    handle_buffer raw
      {| calls := calls'; sleeps := sleeps';
         wave_array := wave_array st; tree := tree st;
         stdout := stdout st |}.
Proof.
  intros Hrun.
  destruct (accumulate_spec t _ _ _ _ _ _ _ Hrun) as (Hc & Hlen & Hraw).
  split; [done |]. split; [done |]. split; [done |].
  unfold event_body. by rewrite Hrun.
Qed.

(** A read that delivers nothing costs one sleep and one more read,
    and nothing else. *)
Lemma accumulate_empty_read (fuel : nat) (t : transport) (c s : nat)
    (raw_words : list Z) :
  length raw_words < EVENT_WORDS → valid_data (t c) = 0 →
  accumulate (S fuel) t c s raw_words =
    accumulate fuel t (S c) (S s) raw_words.
Proof.
  intros Hless Hzero. rewrite accumulate_eq.
  by rewrite !decide_True.
Qed.

(** A read that fills the chunk ends the loop, and the buffer is the
    chunk. *)
Lemma accumulate_full_read (fuel : nat) (t : transport) (c s : nat) :
  0 < EVENT_WORDS → valid_data (t c) = FIFO_CHUNK →
  accumulate (S fuel) t c s [] = Ok (valid_words t c, S c, s) ∧
  length (valid_words t c) = FIFO_CHUNK.
Proof.
  intros Hpos Hfull.
  assert (Hlen : length (valid_words t c) = FIFO_CHUNK).
  { unfold valid_words.
    rewrite Hfull, length_take, length_fill, length_replicate. lia. }
  split; [| done].
  rewrite accumulate_eq. simpl length.
  rewrite decide_True by done.
  rewrite decide_False by (rewrite Hfull; unfold FIFO_CHUNK; lia).
  unfold np_frombuffer.
  rewrite decide_True
    by (rewrite Hfull; by rewrite length_fill, length_replicate).
  simpl. fold (valid_words t c). rewrite accumulate_eq.
  by rewrite decide_False by (rewrite Hlen; unfold FIFO_CHUNK; lia).
Qed.

(** Any number of reads that deliver nothing, one after the other, cost
    one sleep and one more read each, and nothing else. *)
Lemma accumulate_empty_run (t : transport) :
  ∀ n fuel c s raw_words,
    length raw_words < EVENT_WORDS →
    (∀ k, c <= k < c + n → valid_data (t k) = 0) →
    accumulate (n + fuel) t c s raw_words =
      accumulate fuel t (c + n) (s + n) raw_words.
Proof.
  induction n as [| n IH]; intros fuel c s raw_words Hless Hzero.
  - simpl. by rewrite !Nat.add_0_r.
  - simpl Nat.add. rewrite accumulate_empty_read by (try apply Hzero; lia).
    rewrite IH by (try done; intros k Hk; apply Hzero; lia).
    f_equal; lia.
Qed.

(** C7. Accumulator liveness.  With a device that answers no word and a
    full chunk in turn, the loop returns as soon as it is given two
    turns, and what it returns is known exactly: if the read it starts
    with is a full chunk, that chunk after one read and no sleep; if it
    is empty, the chunk of the next read after two reads and one sleep
    (and the empty buffer at once when [EVENT_WORDS] is zero).  In each
    case the buffer holds at least [EVENT_WORDS] words and nothing is
    raised.  And for any device whatever, reads that deliver no word,
    however many in a row, only make the loop sleep and read again:
    the loop goes on from the read after them with the same buffer, one
    sleep more per empty read. *)
Theorem accumulate_alternating :
  (∀ t, alternating t →
     ∀ fuel c s, 2 <= fuel →
       ∃ raw c' s',
         accumulate fuel t c s [] = Ok (raw, c', s') ∧
         EVENT_WORDS <= length raw ∧
         (raw, c', s') =
           if decide (EVENT_WORDS = 0) then ([], c, s)
           else if decide (valid_data (t c) = 0)
                then (valid_words t (S c), S (S c), S s)
                else (valid_words t c, S c, s)) ∧
  (∀ t n fuel c s raw_words,
     length raw_words < EVENT_WORDS →
     (∀ k, c <= k < c + n → valid_data (t k) = 0) →
     accumulate (n + fuel) t c s raw_words =
       accumulate fuel t (c + n) (s + n) raw_words).
Proof.
  split; [| intros t; apply accumulate_empty_run].
  intros t Halt fuel c s Hfuel.
  destruct (decide (EVENT_WORDS = 0)) as [Hnull | Hpos].
  - exists [], c, s. rewrite accumulate_eq. simpl length.
    rewrite decide_False by lia. repeat split; simpl; lia.
  - destruct fuel as [| [| fuel]]; [lia | lia |].
    destruct (Halt c) as [[Hzero Hnext] | [Hfull _]].
    + rewrite decide_True by done.
      rewrite accumulate_empty_read by (simpl; lia || done).
      destruct (accumulate_full_read fuel t (S c) (S s) ltac:(lia) Hnext)
        as [-> Hlen].
      eexists _, _, _. split; [done |]. split; [| done].
      rewrite Hlen. unfold FIFO_CHUNK. lia.
    + rewrite decide_False by (rewrite Hfull; unfold FIFO_CHUNK; lia).
      destruct (accumulate_full_read (S fuel) t c s ltac:(lia) Hfull)
        as [-> Hlen].
      eexists _, _, _. split; [done |]. split; [| done].
      rewrite Hlen. unfold FIFO_CHUNK. lia.
Qed.

End AccumulateClaims.

Lemma accumulate_returns_whole_witness :
  @EVENT_WORDS DT5560 <= length (sample_frame ++ sample_frame) ∧
  @event_body DT5560 1 full_transport (@initial DT5560) =
    @handle_buffer DT5560 (sample_frame ++ sample_frame)
      {| calls := 1; sleeps := 0;
         wave_array := wave_array (@initial DT5560);
         tree := tree (@initial DT5560);
         stdout := stdout (@initial DT5560) |}.
Proof.
  destruct (@accumulate_returns_whole DT5560 1 full_transport
              (@initial DT5560) (sample_frame ++ sample_frame) 1 0)
    as (H1 & _ & _ & H2).
  - vm_compute. reflexivity.
  - split; [exact H1 | exact H2].
Defined.

Lemma alternating_transport_alternates :
  @alternating DT5560 alternating_transport.
Proof.
  intros n. unfold alternating_transport.
  rewrite Nat.even_succ, <- Nat.negb_even.
  destruct (Nat.even n); [left | right]; split; reflexivity.
Defined.

Lemma accumulate_alternating_witness :
  ∃ raw c' s',
    @accumulate DT5560 2 alternating_transport 0 0 [] = Ok (raw, c', s') ∧
    @EVENT_WORDS DT5560 <= length raw ∧
    (raw, c', s') =
      if decide (@EVENT_WORDS DT5560 = 0) then ([], 0, 0)
      else if decide (valid_data (alternating_transport 0) = 0)
           then (@valid_words DT5560 alternating_transport 1, 2, 1)
           else (@valid_words DT5560 alternating_transport 0, 1, 0).
Proof.
  destruct (@accumulate_alternating DT5560) as [Hreturns _].
  apply (Hreturns alternating_transport alternating_transport_alternates
           2 0 0).
  lia.
Defined.

(** ** The status code of a FIFO read *)

Section StatusClaims.
Context `{L : FrameLayout}.

Lemma accumulate_with_status (f : nat -> Z) (t : transport) :
  ∀ fuel c s raw_words,
    accumulate fuel (with_status f t) c s raw_words =
    accumulate fuel t c s raw_words.
Proof.
  induction fuel as [| fuel IH]; intros c s raw_words;
    rewrite !(accumulate_eq _ _ c s raw_words); [done |].
  simpl. rewrite IH.
  destruct (np_frombuffer _ _); simpl; [by rewrite IH | done | done].
Qed.

Lemma event_body_with_status (f : nat -> Z) (t : transport) (fuel : nat)
    (st : daq) :
  event_body fuel (with_status f t) st = event_body fuel t st.
Proof. unfold event_body. by rewrite accumulate_with_status. Qed.

Lemma event_loop_with_status (f : nat -> Z) (t : transport) (fuel : nat) :
  ∀ events st,
    event_loop fuel (with_status f t) events st =
    event_loop fuel t events st.
Proof.
  induction events as [| iev events IH]; intros st; [done |].
  simpl. rewrite event_body_with_status.
  destruct (event_body fuel t st); simpl; [apply IH | done | done].
Qed.

(** C2, as the code has it.  The status code of a FIFO read is never
    looked at: the accumulator, the loop body and [main] give the same
    result when the status codes of the device are replaced by any
    others, zero included.  A read is handled by its valid-word count
    alone: no word, sleep and read again; some words, append them. *)
Theorem status_code_ignored (f : nat -> Z) (t : transport) (fuel : nat) :
  (∀ c s raw_words,
     accumulate fuel (with_status f t) c s raw_words =
     accumulate fuel t c s raw_words) ∧
  (∀ st, event_body fuel (with_status f t) st = event_body fuel t st) ∧
  ∀ connect_err,
  main connect_err fuel (with_status f t) = main connect_err fuel t.
Proof.
  split; [apply accumulate_with_status |].
  split; [intros st; apply event_body_with_status |].
  intros connect_err. unfold main.
destruct (decide (connect_err ≠ 0)%Z); [done |].
  apply event_loop_with_status.
Qed.

End StatusClaims.

(** C2, as the claim has it, fails.  The first read of
    [failing_transport] reports status -1; the accumulator raises
    nothing, sleeps once, reads a second time and returns normally with
    the words of that second read. *)
Lemma transport_error_not_surfaced :
  status (failing_transport 0) ≠ 0%Z ∧
  (¬ ∃ e, @accumulate DT5560 2 failing_transport 0 0 [] = Raise e) ∧
  @accumulate DT5560 2 failing_transport 0 0 [] =
    Ok (sample_frame ++ sample_frame, 2, 1).
Proof.
  assert (Hrun : @accumulate DT5560 2 failing_transport 0 0 [] =
                 Ok (sample_frame ++ sample_frame, 2, 1))
    by (vm_compute; reflexivity).
  split; [vm_compute; discriminate |]. split; [| exact Hrun].
  intros [e He]. rewrite Hrun in He. discriminate.
Qed.

(** ** More on the header search *)

Lemma np_where_eq_nil_inv (data : list Z) (w : Z) (from : nat) :
  np_where_eq data w from = [] → ∀ j, data !! j ≠ Some w.
Proof.
  revert from. induction data as [| x data IH]; intros from Hnil j; [done |].
  simpl in Hnil. destruct (decide (x = w)) as [-> | Hx]; [done |].
  destruct j as [| j]; simpl.
  - congruence.
  - by apply (IH (S from)).
Qed.

Lemma np_where_eq_cons_inv (data : list Z) (w : Z) (from i : nat)
    (later : list nat) :
  np_where_eq data w from = i :: later →
  ∃ idx, i = from + idx ∧ data !! idx = Some w ∧
         ∀ j, j < idx → data !! j ≠ Some w.
Proof.
  revert from. induction data as [| x data IH]; intros from Hcons; [done |].
  simpl in Hcons. destruct (decide (x = w)) as [-> | Hx].
  - injection Hcons as <- _. exists 0. repeat split; [lia | lia].
  - destruct (IH (S from) Hcons) as (idx & -> & Hidx & Hbefore).
    exists (S idx). split; [lia |]. split; [done |].
    intros [| j] Hj; simpl; [congruence |]. apply Hbefore. lia.
Qed.

Section SyncExtras.
Context `{L : FrameLayout}.

(** X1. The frame handed to the decoder is a window of the buffer that
    starts at the first sentinel, has [EVENT_WORDS] words and lies
    inside the buffer; with a non-empty layout its first word is the
    sentinel. *)
Theorem extract_frame_sound (data event : list Z) :
  extract_frame data = Frame event →
  ∃ idx, first_sentinel data idx ∧ idx + EVENT_WORDS <= length data ∧
         event = take EVENT_WORDS (drop idx data) ∧
         length event = EVENT_WORDS ∧
         (0 < EVENT_WORDS → is_frame event).
Proof.
  unfold extract_frame.
  destruct (np_where_eq data SENTINEL 0) as [| i later] eqn:Hhdr; [done |].
  destruct (np_where_eq_cons_inv _ _ _ _ _ Hhdr) as (idx & -> & Hidx & Hbefore).
  simpl. destruct (decide (length data < idx + EVENT_WORDS)); [done |].
  intros [= <-]. exists idx.
  assert (Hlen : length (take EVENT_WORDS (drop idx data)) = EVENT_WORDS).
  { rewrite length_take, length_drop. lia. }
  split; [by split |]. split; [lia |]. split; [done |]. split; [done |].
  intros Hpos. split; [done |].
  rewrite lookup_take_lt by done. rewrite lookup_drop.
  by rewrite Nat.add_0_r.
Qed.

(** X2. [NoHeaderFound] is answered exactly for the buffers that hold no
    sentinel. *)
Theorem no_header_iff (data : list Z) :
  extract_frame data = NoHeaderFound ↔ ∀ j, data !! j ≠ Some SENTINEL.
Proof.
  split; [| apply extract_frame_none].
  unfold extract_frame.
  destruct (np_where_eq data SENTINEL 0) as [| i later] eqn:Hhdr.
  - intros _. by apply (np_where_eq_nil_inv _ _ _ Hhdr).
  - by destruct (decide _).
Qed.

(** X3. [IncompleteFrame] is answered exactly for the buffers that hold
    fewer than [EVENT_WORDS] words from their first sentinel on. *)
Theorem incomplete_frame_iff (data : list Z) :
  extract_frame data = IncompleteFrame ↔
  ∃ idx, first_sentinel data idx ∧ length data < idx + EVENT_WORDS.
Proof.
  split.
  - unfold extract_frame.
    destruct (np_where_eq data SENTINEL 0) as [| i later] eqn:Hhdr; [done |].
    destruct (np_where_eq_cons_inv _ _ _ _ _ Hhdr)
      as (idx & -> & Hidx & Hbefore).
    simpl. destruct (decide (length data < idx + EVENT_WORDS)); [| done].
    intros _. exists idx. by repeat split.
  - intros (idx & Hfirst & Hshort).
    rewrite (extract_frame_first _ _ Hfirst). by rewrite decide_True.
Qed.


End SyncExtras.

Lemma extract_frame_sound_witness :
  ∃ idx, @first_sentinel ([0; 1; 2]%Z ++ sample_frame) idx ∧
         idx + @EVENT_WORDS DT5560 <= length ([0; 1; 2]%Z ++ sample_frame) ∧
         sample_frame =
           take (@EVENT_WORDS DT5560) (drop idx ([0; 1; 2]%Z ++ sample_frame)) ∧
         length sample_frame = @EVENT_WORDS DT5560 ∧
         (0 < @EVENT_WORDS DT5560 → @is_frame DT5560 sample_frame).
Proof.
  apply (@extract_frame_sound DT5560 ([0; 1; 2]%Z ++ sample_frame) sample_frame).
  vm_compute. reflexivity.
Defined.

(** ** More on the decoder *)

Lemma halves_determine_word (w1 w2 : Z) :
  uint32 w1 → uint32 w2 →
  Z.land w1 0xFFFF = Z.land w2 0xFFFF →
  Z.land (Z.shiftr w1 16) 0xFFFF = Z.land (Z.shiftr w2 16) 0xFFFF →
  w1 = w2.
Proof.
  unfold uint32. intros H1 H2. change 0xFFFF%Z with (Z.ones 16).
  rewrite !Z.land_ones, !Z.shiftr_div_pow2 by lia.
  intros Hlo Hhi.
  rewrite (Z.mod_small (w1 / 2 ^ 16)) in Hhi
    by (split; [apply Z.div_pos; lia | apply Z.div_lt_upper_bound; lia]).
  rewrite (Z.mod_small (w2 / 2 ^ 16)) in Hhi
    by (split; [apply Z.div_pos; lia | apply Z.div_lt_upper_bound; lia]).
  rewrite (Z.div_mod w1 (2 ^ 16)), (Z.div_mod w2 (2 ^ 16)) by lia.
  by rewrite Hlo, Hhi.
Qed.

Section DecodeExtras.
Context `{L : FrameLayout}.

Lemma well_shaped_ext (w1 w2 : matrix) :
  well_shaped w1 → well_shaped w2 →
  (∀ c g, c < CHANNELS → g < WAVE_LEN → cell w1 c g = cell w2 c g) →
  w1 = w2.
Proof.
  intros [Hl1 Hr1] [Hl2 Hr2] Hcells. apply list_eq. intros c.
  destruct (decide (c < CHANNELS)) as [Hc | Hc].
  - destruct (lookup_lt_is_Some_2 w1 c) as [r1 Hc1]; [lia |].
    destruct (lookup_lt_is_Some_2 w2 c) as [r2 Hc2]; [lia |].
    rewrite Hc1, Hc2. f_equal.
    destruct (Forall_lookup_1 _ _ _ _ Hr1 Hc1) as [Hlr1 _].
    destruct (Forall_lookup_1 _ _ _ _ Hr2 Hc2) as [Hlr2 _].
    apply list_eq. intros g.
    destruct (decide (g < WAVE_LEN)) as [Hg | Hg].
    + specialize (Hcells c g Hc Hg). unfold cell in Hcells.
      by rewrite Hc1, Hc2 in Hcells.
    + rewrite !lookup_ge_None_2; [done | lia | lia].
  - rewrite !lookup_ge_None_2; [done | lia | lia].
Qed.

(** X4. [decode_event] reads the first [EVENT_WORDS] words of its argument
    and nothing after them: decoding any sequence gives what decoding
    its first [EVENT_WORDS] words gives. *)
Theorem decode_event_reads_one_frame (event : list Z) :
  decode_event event = decode_event (take EVENT_WORDS event).
Proof.
  destruct (decode_event_cells event) as (w1 & -> & Hs1 & Hc1).
  destruct (decode_event_cells (take EVENT_WORDS event))
    as (w2 & -> & Hs2 & Hc2).
  f_equal. apply well_shaped_ext; [done | done |].
  intros c g Hc Hg. rewrite Hc1, Hc2 by done. f_equal.
  destruct (decide (c / 2 < WORDS_PER_SAMPLE)) as [Hq | Hq]; [| done].
  rewrite lookup_take_lt; [done |]. unfold EVENT_WORDS. nia.
Qed.

(** X5. Decoding loses nothing of the payload: when the channel count is
    twice the number of words per group, two frames of 32-bit words that
    decode to the same array have the same payload words. *)
Theorem decode_event_injective (e1 e2 : list Z) :
  CHANNELS = 2 * WORDS_PER_SAMPLE →
  length e1 = EVENT_WORDS → length e2 = EVENT_WORDS →
  Forall uint32 (drop EVENT_HEADER_WORDS e1) →
  Forall uint32 (drop EVENT_HEADER_WORDS e2) →
  decode_event e1 = decode_event e2 →
  drop EVENT_HEADER_WORDS e1 = drop EVENT_HEADER_WORDS e2.
Proof.
  intros Hch Hl1 Hl2 Hu1 Hu2 Hdec.
  destruct (decode_event_cells e1) as (w1 & Hr1 & _ & Hc1).
  destruct (decode_event_cells e2) as (w2 & Hr2 & _ & Hc2).
  assert (w1 = w2) as <- by congruence.
  apply drop_ext; [congruence |]. intros k Hk.
  assert (Hpos : 0 < WORDS_PER_SAMPLE).
  { unfold EVENT_WORDS in Hl1. destruct WORDS_PER_SAMPLE; lia. }
  set (j := k - EVENT_HEADER_WORDS).
  set (g := j / WORDS_PER_SAMPLE). set (p := j mod WORDS_PER_SAMPLE).
  assert (Hj : j = g * WORDS_PER_SAMPLE + p).
  { unfold g, p. rewrite Nat.mul_comm. apply Nat.div_mod_eq. }
  assert (Hp : p < WORDS_PER_SAMPLE) by (apply Nat.mod_upper_bound; lia).
  assert (Hg : g < WAVE_LEN).
  { apply Nat.Div0.div_lt_upper_bound. unfold EVENT_WORDS in Hl1.
    unfold j. lia. }
  assert (Hk' : k = EVENT_HEADER_WORDS + (g * WORDS_PER_SAMPLE + p))
    by (unfold j in Hj; lia).
  destruct (lookup_lt_is_Some_2 e1 k) as [x1 Hx1]; [lia |].
  destruct (lookup_lt_is_Some_2 e2 k) as [x2 Hx2]; [lia |].
  rewrite Hx1, Hx2. f_equal.
  assert (HdA : (p * 2) / 2 = p) by (apply Nat.div_mul; lia).
  assert (HdB : (p * 2 + 1) / 2 = p).
  { symmetry. apply (Nat.div_unique _ 2 p 1); lia. }
  pose proof (Hc1 (p * 2) g ltac:(lia) Hg) as HA1.
  pose proof (Hc2 (p * 2) g ltac:(lia) Hg) as HA2.
  pose proof (Hc1 (p * 2 + 1) g ltac:(lia) Hg) as HB1.
  pose proof (Hc2 (p * 2 + 1) g ltac:(lia) Hg) as HB2.
  rewrite HdA, decide_True, <- Hk' in HA1, HA2 by done.
  rewrite HdB, decide_True, <- Hk' in HB1, HB2 by done.
  rewrite Hx1, half_even in HA1. rewrite Hx2, half_even in HA2.
  rewrite Hx1, half_odd in HB1. rewrite Hx2, half_odd in HB2.
  apply halves_determine_word.
  - apply (Forall_lookup_1 _ _ (k - EVENT_HEADER_WORDS) _ Hu1).
    rewrite lookup_drop. by replace (_ + _) with k by lia.
  - apply (Forall_lookup_1 _ _ (k - EVENT_HEADER_WORDS) _ Hu2).
    rewrite lookup_drop. by replace (_ + _) with k by lia.
  - congruence.
  - congruence.
Qed.

End DecodeExtras.

Lemma decode_event_injective_witness :
  drop (@EVENT_HEADER_WORDS DT5560) sample_frame =
  drop (@EVENT_HEADER_WORDS DT5560) sample_frame'.
Proof.
  apply (@decode_event_injective DT5560 sample_frame sample_frame').
  - reflexivity.
  - reflexivity.
  - reflexivity.
  - change (drop (@EVENT_HEADER_WORDS DT5560) sample_frame)
      with (replicate 640 0x00020001%Z).
    apply Forall_replicate. unfold uint32. lia.
  - change (drop (@EVENT_HEADER_WORDS DT5560) sample_frame')
      with (replicate 640 0x00020001%Z).
    apply Forall_replicate. unfold uint32. lia.
  - vm_compute. reflexivity.
Defined.

(** ** More on the accumulator *)

Section AccumulateExtras.
Context `{L : FrameLayout}.

Lemma accumulate_bound (t : transport) :
  ∀ fuel c s raw_words raw c' s',
    accumulate fuel t c s raw_words = Ok (raw, c', s') →
    length raw <=
      Nat.max (length raw_words) (EVENT_WORDS - 1 + FIFO_CHUNK).
Proof.
  induction fuel as [| fuel IH]; intros c s raw_words raw c' s';
    rewrite accumulate_eq;
    destruct (decide (length raw_words < EVENT_WORDS)) as [Hless | Hfull];
    intros Hrun; try discriminate.
  - injection Hrun as <- <- <-. lia.
  - destruct (decide (valid_data (t c) = 0)) as [Hzero | Hsome].
    + apply IH in Hrun. lia.
    + unfold np_frombuffer in Hrun.
      destruct (decide (valid_data (t c) <= _)) as [Hfit | ]; [| discriminate].
      rewrite length_fill, length_replicate in Hfit.
      simpl in Hrun. apply IH in Hrun.
      rewrite length_app, length_take, length_fill, length_replicate in Hrun.
      lia.
  - injection Hrun as <- <- <-. lia.
Qed.

(** X6. The buffer never grows more than one chunk past the last word it
    still missed: when the accumulator returns, its buffer holds at most
    [EVENT_WORDS - 1 + FIFO_CHUNK] words. *)
Theorem accumulate_at_most_one_chunk_over (fuel : nat) (t : transport)
    (c s : nat) (raw : list Z) (c' s' : nat) :
  accumulate fuel t c s [] = Ok (raw, c', s') →
  length raw <= EVENT_WORDS - 1 + FIFO_CHUNK.
Proof.
  intros Hrun. apply accumulate_bound in Hrun. simpl in Hrun. lia.
Qed.

Lemma accumulate_sleeps_count (t : transport) (fuel c s : nat)
    (raw_words raw : list Z) (c' s' : nat) :
  accumulate fuel t c s raw_words = Ok (raw, c', s') →
  s' = s + length (filter (λ k, valid_data (t k) = 0) (seq c (c' - c))).
Proof.
  revert c s raw_words.
  induction fuel as [| fuel IH]; intros c s raw_words;
    rewrite accumulate_eq;
    destruct (decide (length raw_words < EVENT_WORDS)) as [Hless | Hfull];
    intros Hrun; try discriminate.
  - injection Hrun as <- <- <-. rewrite Nat.sub_diag. simpl. lia.
  - destruct (decide (valid_data (t c) = 0)) as [Hzero | Hsome].
    + pose proof (accumulate_spec t _ _ _ _ _ _ _ Hrun) as [Hc _].
      apply IH in Hrun as ->.
      replace (c' - c) with (S (c' - S c)) by lia. simpl.
      rewrite filter_cons_True by done. simpl. lia.
    + destruct (np_frombuffer _ _) as [arr | |]; try discriminate.
      simpl in Hrun.
      pose proof (accumulate_spec t _ _ _ _ _ _ _ Hrun) as [Hc _].
      apply IH in Hrun as ->.
      replace (c' - c) with (S (c' - S c)) by lia. simpl.
      by rewrite filter_cons_False by done.
  - injection Hrun as <- <- <-. rewrite Nat.sub_diag. simpl. lia.
Qed.

(** X7. The loop sleeps once for each read that delivered no word, and at
    no other time. *)
Theorem accumulate_sleeps (t : transport) (fuel c s : nat)
    (raw_words raw : list Z) (c' s' : nat) :
  accumulate fuel t c s raw_words = Ok (raw, c', s') →
  s' = s + length (filter (λ k, valid_data (t k) = 0) (seq c (c' - c))).
Proof. apply accumulate_sleeps_count. Qed.

Lemma accumulate_returns (t : transport) (fuel c s : nat)
    (raw_words : list Z) :
  (∀ k, c <= k < c + fuel → valid_data (t k) <= FIFO_CHUNK) →
  EVENT_WORDS <=
    length raw_words + sum_list ((λ k, valid_data (t k)) <$> seq c fuel) →
  ∃ raw c' s',
    accumulate fuel t c s raw_words = Ok (raw, c', s') ∧ c' <= c + fuel.
Proof.
  revert c s raw_words.
  induction fuel as [| fuel IH]; intros c s raw_words Hfit Hsum;
    rewrite accumulate_eq;
    destruct (decide (length raw_words < EVENT_WORDS)) as [Hless | Hfull];
    try (exists raw_words, c, s; split; [done | lia]).
  - simpl in Hsum. lia.
  - simpl in Hsum.
    destruct (decide (valid_data (t c) = 0)) as [Hzero | Hsome].
    + destruct (IH (S c) (S s) raw_words) as (raw & c' & s' & -> & Hc');
        [intros k Hk; apply Hfit; lia | unfold fmap; lia |].
      exists raw, c', s'. split; [done | lia].
    + unfold np_frombuffer.
      rewrite decide_True
        by (rewrite length_fill, length_replicate; apply Hfit; lia).
      simpl.
      destruct (IH (S c) s (raw_words ++
                  take (valid_data (t c))
                    (fill (replicate FIFO_CHUNK 0%Z) (delivered (t c)))))
        as (raw & c' & s' & -> & Hc').
      * intros k Hk. apply Hfit. lia.
      * rewrite length_app, length_take, length_fill, length_replicate.
        pose proof (Hfit c ltac:(lia)). unfold fmap. lia.
      * exists raw, c', s'. split; [done | lia].
Qed.

(** X8. Liveness in general: if none of the next [fuel] reads claims more
    words than the chunk holds, and together they deliver the words that
    are still missing, the loop returns within these reads. *)
Theorem accumulate_enough_words (t : transport) (fuel c s : nat)
    (raw_words : list Z) :
  (∀ k, c <= k < c + fuel → valid_data (t k) <= FIFO_CHUNK) →
  EVENT_WORDS <=
    length raw_words + sum_list ((λ k, valid_data (t k)) <$> seq c fuel) →
  ∃ raw c' s',
    accumulate fuel t c s raw_words = Ok (raw, c', s') ∧ c' <= c + fuel.
Proof. apply accumulate_returns. Qed.


End AccumulateExtras.

Lemma accumulate_at_most_one_chunk_over_witness :
  length (sample_frame ++ sample_frame) <=
    @EVENT_WORDS DT5560 - 1 + @FIFO_CHUNK DT5560.
Proof.
  apply (@accumulate_at_most_one_chunk_over DT5560 1 full_transport 0 0
           (sample_frame ++ sample_frame) 1 0).
  vm_compute. reflexivity.
Defined.

Lemma accumulate_sleeps_witness :
  1 = 0 + length (filter (λ k, valid_data (alternating_transport k) = 0)
                    (seq 0 (2 - 0))).
Proof.
  apply (@accumulate_sleeps DT5560 alternating_transport 2 0 0 []
           (sample_frame ++ sample_frame) 2 1).
  vm_compute. reflexivity.
Defined.

Lemma accumulate_enough_words_witness :
  ∃ raw c' s',
    @accumulate DT5560 2 alternating_transport 0 0 [] = Ok (raw, c', s') ∧
    c' <= 0 + 2.
Proof.
  apply (@accumulate_enough_words DT5560 alternating_transport 2 0 0 []).
  - intros k Hk. destruct k as [| [| k]]; [vm_compute; lia | vm_compute; lia | lia].
  - vm_compute. lia.
Defined.

(** ** The event loop *)

Section LoopExtras.
Context `{L : FrameLayout}.

Lemma handle_buffer_ok (data : list Z) (st : daq) :
  ∃ st', handle_buffer data st = Ok st' ∧
         calls st' = calls st ∧ sleeps st' = sleeps st ∧
         (skipped st st' ∨ stored st st').
Proof.
  unfold handle_buffer. destruct (extract_frame data) as [| | event].
  - eexists. split; [done |]. simpl. split; [done |]. split; [done |].
    left. repeat split; simpl; eauto.
  - eexists. split; [done |]. simpl. split; [done |]. split; [done |].
    left. repeat split; simpl; eauto.
  - destruct (decode_event_cells event) as (waves & -> & Hsh & _). simpl.
    eexists. split; [done |]. simpl. split; [done |]. split; [done |].
    right. exists waves. split; [done |]. by simpl.
Qed.

Lemma event_body_ok (fuel : nat) (t : transport) (st st' : daq) :
  event_body fuel t st = Ok st' →
  calls st <= calls st' ∧ sleeps st <= sleeps st' ∧
  (skipped st st' ∨ stored st st').
Proof.
  unfold event_body.
  destruct (accumulate fuel t (calls st) (sleeps st) [])
    as [[[raw c'] s'] | |] eqn:Hacc; simpl; try discriminate.
  pose proof (accumulate_spec t _ _ _ _ _ _ _ Hacc) as [Hc _].
  pose proof (accumulate_sleeps_count t _ _ _ _ _ _ _ Hacc) as Hs.
  destruct (handle_buffer_ok raw
              {| calls := c'; sleeps := s'; wave_array := wave_array st;
                 tree := tree st; stdout := stdout st |})
    as (st1 & -> & Hc1 & Hs1 & Hcase).
  intros [= <-]. simpl in *. split; [lia |]. split; [lia |]. done.
Qed.


Lemma event_loop_tally (fuel : nat) (t : transport)
    (events : list nat) (st st' : daq) :
  event_loop fuel t events st = Ok st' →
  length (tree st') + length (stdout st') =
    length (tree st) + length (stdout st) + length events ∧
  tree st `prefix_of` tree st' ∧ stdout st `prefix_of` stdout st' ∧
  calls st <= calls st' ∧ sleeps st <= sleeps st'.
Proof.
  revert st. induction events as [| iev events IH]; intros st; simpl.
  - intros [= <-]. repeat split; [lia | done | done | lia | lia].
  - destruct (event_body fuel t st) as [st1 | |] eqn:Hbody; simpl;
      try discriminate.
    intros Hrest.
    destruct (event_body_ok _ _ _ _ Hbody) as (Hc & Hs & Hcase).
    destruct (IH _ Hrest) as (Hn & Ht & Ho & Hc' & Hs').
    destruct Hcase as [(Et & _ & msg & Eo) | (waves & _ & Et & _ & Eo)].
    + rewrite Et, Eo in *. rewrite length_app in Hn. simpl in Hn.
      repeat split; [lia | done | | lia | lia].
      etrans; [| exact Ho]. by apply prefix_app_r.
    + rewrite Et, Eo in *. rewrite length_app in Hn. simpl in Hn.
      repeat split; [lia | | done | lia | lia].
      etrans; [| exact Ht]. by apply prefix_app_r.
Qed.

(** X10. Every event is accounted for once: when the loop ends normally, it
    has added one tree entry or one message per event, the entries and
    messages it started with are still there in front, and the counters
    of reads and sleeps did not go down. *)
Theorem event_loop_accounts (fuel : nat) (t : transport)
    (events : list nat) (st st' : daq) :
  event_loop fuel t events st = Ok st' →
  length (tree st') + length (stdout st') =
    length (tree st) + length (stdout st) + length events ∧
  tree st `prefix_of` tree st' ∧ stdout st `prefix_of` stdout st' ∧
  calls st <= calls st' ∧ sleeps st <= sleeps st'.
Proof. apply event_loop_tally. Qed.

Lemma event_loop_branch (fuel : nat) (t : transport)
    (events : list nat) (st st' : daq) :
  branch_in_step st →
  event_loop fuel t events st = Ok st' →
  branch_in_step st'.
Proof.
  revert st. induction events as [| iev events IH]; intros st Hinv; simpl.
  - by intros [= <-].
  - destruct (event_body fuel t st) as [st1 | |] eqn:Hbody; simpl;
      try discriminate.
    apply IH.
    destruct (event_body_ok _ _ _ _ Hbody) as (_ & _ & Hcase).
    destruct Hinv as [Hall Hlast]. unfold branch_in_step.
    destruct Hcase as [(-> & -> & _) | (waves & Hsh & -> & -> & _)].
    + done.
    + split; [apply Forall_app; by split; [| constructor] |].
      by rewrite last_snoc.
Qed.



End LoopExtras.

Lemma event_loop_accounts_witness :
  length [sample_waves] + length [EventWithoutHeader] =
    length (tree (@initial DT5560)) + length (stdout (@initial DT5560)) +
    length [0; 1].
Proof.
  apply (@event_loop_accounts DT5560 1 mixed_transport [0; 1]
           (@initial DT5560)
           {| calls := 2; sleeps := 0; wave_array := sample_waves;
              tree := [sample_waves]; stdout := [EventWithoutHeader] |}).
  vm_compute. reflexivity.
Defined.



(** ** From the device to the tree *)

Section EndToEnd.
Context `{L : FrameLayout}.

Lemma sum_list_at_least (f : nat → nat) :
  (∀ k, 1 <= f k) → ∀ n c, n <= sum_list (f <$> seq c n).
Proof.
  intros Hf. induction n as [| n IH]; intros c; [simpl; lia |].
  simpl. specialize (IH (S c)). specialize (Hf c). unfold fmap in IH. lia.
Qed.

Lemma event_body_completes (fuel : nat) (t : transport) (st : daq) :
  (∀ n, 1 <= valid_data (t n) <= FIFO_CHUNK) → EVENT_WORDS <= fuel →
  ∃ st', event_body fuel t st = Ok st'.
Proof.
  intros Hlive Hfuel. unfold event_body.
  destruct (accumulate_returns t fuel (calls st) (sleeps st) [])
    as (raw & c' & s' & -> & _).
  - intros k _. apply Hlive.
  - pose proof (sum_list_at_least (λ k, valid_data (t k))
                  (λ k, proj1 (Hlive k)) fuel (calls st)).
    simpl. lia.
  - simpl.
    destruct (handle_buffer_ok raw
                {| calls := c'; sleeps := s'; wave_array := wave_array st;
                   tree := tree st; stdout := stdout st |})
      as (st' & -> & _).
    by exists st'.
Qed.

Lemma event_loop_completes (fuel : nat) (t : transport) :
  (∀ n, 1 <= valid_data (t n) <= FIFO_CHUNK) → EVENT_WORDS <= fuel →
  ∀ events st, ∃ st', event_loop fuel t events st = Ok st'.
Proof.
  intros Hlive Hfuel. induction events as [| iev events IH]; intros st.
  - by exists st.
  - simpl.
    destruct (event_body_completes fuel t st Hlive Hfuel) as [st1 ->].
    simpl. apply IH.
Qed.

Lemma initial_in_step : branch_in_step initial.
Proof. split; [constructor | reflexivity]. Qed.

(** X12. daqMonitor.py, a run against a device that always delivers at
    least one word and never more than a chunk: [main] of daqMonitor.py
    ends normally (each event needs at
    most [EVENT_WORDS] reads), without exception.  After a failed
    connection nothing was read or stored; otherwise each of the
    [N_EVENTS] events gave one tree entry or one message, the tree has
    at most [N_EVENTS] entries, all full arrays of 16-bit cells, and
    the branch array holds the last of them. *)
Theorem main_completes (connect_err : Z) (fuel : nat) (t : transport) :
  (∀ n, 1 <= valid_data (t n) <= FIFO_CHUNK) → EVENT_WORDS <= fuel →
  ∃ st',
    main connect_err fuel t = Ok st' ∧ branch_in_step st' ∧
    (connect_err ≠ 0%Z → st' = initial) ∧
    (connect_err = 0%Z →
       length (tree st') + length (stdout st') = N_EVENTS ∧
       length (tree st') <= N_EVENTS).
Proof.
  intros Hlive Hfuel. unfold main.
  destruct (decide (connect_err ≠ 0%Z)) as [Herr | Hok].
  - exists initial. split; [done |]. split; [apply initial_in_step |].
    split; [done |]. intros ->. done.
  - destruct (event_loop_completes fuel t Hlive Hfuel (seq 0 N_EVENTS) initial)
      as [st' Hrun].
    exists st'. split; [done |].
    split; [by apply (event_loop_branch _ _ _ _ _ initial_in_step Hrun) |].
    split; [done |]. intros _.
    destruct (event_loop_tally _ _ _ _ _ Hrun) as (Hn & _).
    rewrite length_seq in Hn. simpl in Hn. lia.
Qed.


End EndToEnd.

Lemma main_completes_witness :
  ∃ st',
    @main DT5560 0 656 full_transport = Ok st' ∧
    @branch_in_step DT5560 st' ∧
    (0%Z ≠ 0%Z → st' = @initial DT5560) ∧
    (0%Z = 0%Z →
       length (tree st') + length (stdout st') = N_EVENTS ∧
       length (tree st') <= N_EVENTS).
Proof.
  apply (@main_completes DT5560 0 656 full_transport).
  - intros n. vm_compute. lia.
  - vm_compute. lia.
Defined.


(** ** The configuration words of start_digitizer *)

Lemma config_word (cmd ch : Z) :
  (0 <= cmd < 2 ^ 8)%Z → (0 <= ch < 2 ^ 24)%Z →
  c_uint32 (cmd + Z.shiftl ch 8) = (cmd + ch * 2 ^ 8)%Z ∧
  Z.land (c_uint32 (cmd + Z.shiftl ch 8)) 0xFF = cmd ∧
  Z.shiftr (c_uint32 (cmd + Z.shiftl ch 8)) 8 = ch.
Proof.
  intros Hcmd Hch. unfold c_uint32. rewrite Z.shiftl_mul_pow2 by lia.
  rewrite Z.mod_small by lia. split; [done |]. split.
  - change 0xFF%Z with (Z.ones 8). rewrite Z.land_ones by lia.
    rewrite Z.mod_add by lia. by apply Z.mod_small.
  - rewrite Z.shiftr_div_pow2 by lia. rewrite Z.div_add by lia.
    rewrite Z.div_small by done. lia.
Qed.

(** X14. [start_digitizer] writes three words to the configuration register,
    and with fewer than 2^24 channels nothing is cut by the 32-bit
    conversion: the low byte of the words is 2, then 0, then 1, and the
    bits above it are the channel count. *)
Theorem start_digitizer_words `{L : FrameLayout} (cfg_addr : Z) :
  (Z.of_nat CHANNELS < 2 ^ 24)%Z →
  Forall2 (λ cmd '(value, address),
             address = c_uint32 cfg_addr ∧
             Z.land value 0xFF = cmd ∧
             Z.shiftr value 8 = Z.of_nat CHANNELS)
          [2; 0; 1]%Z (start_digitizer cfg_addr).
Proof.
  intros Hch. unfold start_digitizer, WriteReg.
  repeat constructor;
    apply (config_word _ (Z.of_nat CHANNELS)); lia.
Qed.

Lemma start_digitizer_words_witness :
  Forall2 (λ cmd '(value, address),
             address = c_uint32 0x100 ∧
             Z.land value 0xFF = cmd ∧
             Z.shiftr value 8 = Z.of_nat (@CHANNELS DT5560))
          [2; 0; 1]%Z (@start_digitizer DT5560 0x100).
Proof.
  apply (@start_digitizer_words DT5560 0x100). vm_compute. reflexivity.
Defined.

(** ** The minimum-amplitude fills of monitor.py *)

Lemma foldl_min_spec (row : list Z) :
  ∀ v, (foldl Z.min v row = v ∨ foldl Z.min v row ∈ row) ∧
       (foldl Z.min v row <= v)%Z ∧
       Forall (λ x, (foldl Z.min v row <= x)%Z) row.
Proof.
  induction row as [| x row IH]; intros v; simpl.
  - split; [by left |]. split; [lia | constructor].
  - destruct (IH (Z.min v x)) as (Hin & Hle & Hall).
    split; [| split].
    + destruct Hin as [Heq | Hin].
      * rewrite Heq. destruct (Z.min_spec v x) as [[_ ->] | [_ ->]];
          [by left | right; left].
      * right. by right.
    + lia.
    + constructor; [lia | done].
Qed.

Lemma np_min_spec (row : list Z) :
  row ≠ [] →
  ∃ m, np_min row = Ok m ∧ m ∈ row ∧ Forall (λ x, (m <= x)%Z) row.
Proof.
  destruct row as [| v row]; [done |]. intros _. simpl.
  destruct (foldl_min_spec row v) as (Hin & Hle & Hall).
  eexists. split; [done |]. split.
  - destruct Hin as [-> | Hin]; [left | by right].
  - by constructor.
Qed.

Section MinFills.
Context `{L : FrameLayout}.

Lemma fill_min_range (waves : matrix) :
  well_shaped waves → 0 < WAVE_LEN →
  ∀ n c h1_min,
    c + n <= CHANNELS → length h1_min = CHANNELS →
    ∃ h', fill_min waves (seq c n) h1_min = Ok h' ∧
          length h' = CHANNELS ∧
          (∀ ch, ch < c ∨ c + n <= ch → h' !! ch = h1_min !! ch) ∧
          ∀ ch row entries,
            c <= ch < c + n →
            waves !! ch = Some row → h1_min !! ch = Some entries →
            ∃ m, h' !! ch = Some (entries ++ [m]) ∧ m ∈ row ∧
                 Forall (λ x, (m <= x)%Z) row.
Proof.
  intros [Hlen Hrows] Hpos.
  induction n as [| n IH]; intros c h1_min Hcn Hh; simpl.
  - exists h1_min. split; [done |]. split; [done |]. split; [done |].
    intros ch row entries Hch. lia.
  - destruct (lookup_lt_is_Some_2 waves c) as [row Hrow]; [lia |].
    destruct (Forall_lookup_1 _ _ _ _ Hrows Hrow) as [Hrl _].
    unfold getrow. rewrite Hrow. simpl.
    destruct (np_min_spec row) as (m & -> & Hin & Hall).
    { intros ->. simpl in Hrl. lia. }
    simpl.
    destruct (lookup_lt_is_Some_2 h1_min c) as [entries Hent]; [lia |].
    unfold Fill. rewrite Hent. simpl.
    destruct (IH (S c) (<[c := entries ++ [m]]> h1_min))
      as (h' & -> & Hl' & Hout & Hin');
      [lia | by rewrite length_insert |].
    exists h'. split; [done |]. split; [done |]. split.
    + intros ch Hch. rewrite Hout by lia.
      apply list_lookup_insert_ne. lia.
    + intros ch row' entries' Hch Hrow' Hent'.
      destruct (decide (ch = c)) as [-> | Hne].
      * rewrite Hout by lia. rewrite list_lookup_insert_eq by lia.
        exists m. split; [congruence |]. split; congruence.
      * apply (Hin' ch row' entries'); [lia | done |].
        rewrite list_lookup_insert_ne by lia. done.
Qed.

(** X15. monitor.py, after decoding: with a full array of at least one
    sample per channel and one histogram per channel, the fill loop
    raises nothing and gives every histogram exactly one new entry, a
    sample of its own channel that no sample of the channel is below. *)
Theorem fill_min_spec (waves : matrix) (h1_min : list (list Z)) :
  well_shaped waves → 0 < WAVE_LEN → length h1_min = CHANNELS →
  ∃ h', fill_min waves (seq 0 CHANNELS) h1_min = Ok h' ∧
        length h' = CHANNELS ∧
        ∀ ch row entries,
          waves !! ch = Some row → h1_min !! ch = Some entries →
          ∃ m, h' !! ch = Some (entries ++ [m]) ∧ m ∈ row ∧
               Forall (λ x, (m <= x)%Z) row.
Proof.
  intros Hsh Hpos Hh.
  destruct (fill_min_range waves Hsh Hpos CHANNELS 0 h1_min)
    as (h' & Hrun & Hl' & _ & Hin); [lia | done |].
  exists h'. split; [done |]. split; [done |].
  intros ch row entries Hrow Hent. apply (Hin ch row entries); [| done | done].
  apply lookup_lt_Some in Hent. lia.
Qed.

(** X16. monitor.py with [WAVE_LEN = 0]: the rows are empty, and the first
    [np.min] ends the fill loop with a [ValueError]. *)
Theorem fill_min_no_samples (waves : matrix) (h1_min : list (list Z)) :
  well_shaped waves → WAVE_LEN = 0 → 0 < CHANNELS →
  fill_min waves (seq 0 CHANNELS) h1_min = Raise ValueError.
Proof.
  intros [Hlen Hrows] Hnone Hch.
  destruct CHANNELS as [| n] eqn:HC; [lia |]. simpl.
  destruct (lookup_lt_is_Some_2 waves 0) as [row Hrow]; [lia |].
  destruct (Forall_lookup_1 _ _ _ _ Hrows Hrow) as [Hrl _].
  unfold getrow. rewrite Hrow. simpl.
  destruct row; [done |]. simpl in Hrl. lia.
Qed.

End MinFills.

Lemma sample_waves_decoded :
  @decode_event DT5560 sample_frame = Ok sample_waves.
Proof. vm_compute. reflexivity. Qed.

Lemma sample_waves_shaped : @well_shaped DT5560 sample_waves.
Proof.
  destruct (@decode_event_cells DT5560 sample_frame) as (w & Hrun & Hsh & _).
  rewrite sample_waves_decoded in Hrun. by injection Hrun as <-.
Defined.

Lemma fill_min_spec_witness :
  ∃ h', @fill_min sample_waves (seq 0 (@CHANNELS DT5560))
          (replicate 32 []) = Ok h' ∧
        length h' = @CHANNELS DT5560.
Proof.
  destruct (@fill_min_spec DT5560 sample_waves (replicate 32 []))
    as (h' & H1 & H2 & _).
  - exact sample_waves_shaped.
  - vm_compute. lia.
  - reflexivity.
  - exists h'. by split.
Defined.

Lemma fill_min_no_samples_witness :
  fill_min [[]; []] (seq 0 2) [[]; []] = Raise ValueError.
Proof.
  apply (@fill_min_no_samples
           {| CHANNELS := 2; WAVE_LEN := 0; EVENT_HEADER_WORDS := 16;
              WORDS_PER_SAMPLE := 1 |} [[]; []] [[]; []]).
  - split; [reflexivity |]. repeat constructor.
  - reflexivity.
  - vm_compute. lia.
Defined.

(** ** The event loop of monitor.py *)

Section MonitorLoop.
Context `{L : FrameLayout}.








End MonitorLoop.


(** On the sample device monitor.py stores the first event, gives the
    second one up, and fills 1 in the histograms of the even channels
    and 2 in those of the odd ones. *)
Example monitor_two_events :
  @event_loop_monitor DT5560 1 mixed_transport [0; 1]
    {| acq := @initial DT5560; h1_min := replicate 32 [] |} =
  Ok {| acq := {| calls := 2; sleeps := 0; wave_array := sample_waves;
                  tree := [sample_waves];
                  stdout := [EventWithoutHeader] |};
        h1_min := concat (replicate 16 [[1]; [2]])%Z |}.
Proof. vm_compute. reflexivity. Qed.
